(** * A ternary search trie for prefix completion (trie-completer.js)

    Shallow embedding of [src/trie-completer.js] and the properties of its
    three public operations: [contains], [addCompletion], [getCompletions],
    together with the randomised constructor. *)

From Equations Require Import Equations.
From Stdlib Require Import List ZArith NArith Arith Lia Bool String Ascii.
From Stdlib Require Import Permutation.
Import ListNotations.

Set Implicit Arguments.
#[local] Unset Equations With Funext.
#[local] Set Warnings "-solve_obligation_error".

(** * The program *)

(** ** JavaScript values used by the module *)

(** A JavaScript string is a sequence of UTF-16 code units. *)
Definition char := N.
Definition jsstring := list char.

(** String literals, for readable examples. *)
Definition js (s : string) : jsstring :=
  map N_of_ascii (list_ascii_of_string s).

(** The values taken by [isCompletion] and returned by [contains]:
    [null], [true] or [false]. *)
Inductive jsval : Type :=
| JNull : jsval
| JBool (b : bool) : jsval.

(** ToBoolean on those values. *)
Definition truthy (v : jsval) : bool :=
  match v with
  | JNull => false
  | JBool b => b
  end.

(** [completion[d]]: a one code unit string, or [undefined] (here [None])
    when [d] is not an index of the string. *)
Definition char_at (s : jsstring) (d : nat) : option char := nth_error s d.

(** [a < b] on two values that are each a one code unit string or
    [undefined]: code units are compared; any comparison with [undefined]
    is false. *)
Definition js_lt (a b : option char) : bool :=
  match a, b with
  | Some x, Some y => N.ltb x y
  | _, _ => false
  end.

(** [a > b] *)
Definition js_gt (a b : option char) : bool := js_lt b a.

(** [prefix + c], string concatenation; [undefined] is converted to the
    string "undefined". *)
Definition js_append_char (prefix : jsstring) (c : option char) : jsstring :=
  match c with
  | Some x => prefix ++ [x]
  | None => prefix ++ js "undefined"
  end.

(** ** Nodes *)

(** A value of type [Node] is a reference that is either [null] or an object
    built by [new Node()].  The field [completion] of the source is never
    read nor written after the allocation and is left out. *)
Inductive Node : Type :=
| null : Node
| mkNode (c : option char) (left mid right : Node) (isCompletion : jsval) : Node.

(** [new Node()]: every field is [null]; [c] is assigned just after. *)
Definition new_Node (c : option char) : Node := mkNode c null null null JNull.

(** [!node] *)
Definition is_null (node : Node) : bool :=
  match node with
  | null => true
  | mkNode _ _ _ _ _ => false
  end.

(** Field reads.  The source reads a field only after a null check; on
    [null] the accessors give the field's initial value. *)
Definition node_c (node : Node) : option char :=
  match node with null => None | mkNode c _ _ _ _ => c end.
Definition node_left (node : Node) : Node :=
  match node with null => null | mkNode _ l _ _ _ => l end.
Definition node_mid (node : Node) : Node :=
  match node with null => null | mkNode _ _ m _ _ => m end.
Definition node_right (node : Node) : Node :=
  match node with null => null | mkNode _ _ _ r _ => r end.
Definition node_isCompletion (node : Node) : jsval :=
  match node with null => JNull | mkNode _ _ _ _ f => f end.

(** Field writes. *)
Definition set_left (node v : Node) : Node :=
  match node with null => null | mkNode c _ m r f => mkNode c v m r f end.
Definition set_mid (node v : Node) : Node :=
  match node with null => null | mkNode c l _ r f => mkNode c l v r f end.
Definition set_right (node v : Node) : Node :=
  match node with null => null | mkNode c l m _ f => mkNode c l m v f end.
Definition set_isCompletion (node : Node) (v : jsval) : Node :=
  match node with null => null | mkNode c l m r _ => mkNode c l m r v end.

(** Number of node objects below a reference. *)
Fixpoint node_count (node : Node) : nat :=
  match node with
  | null => 0
  | mkNode _ l m r _ => S (node_count l + node_count m + node_count r)
  end.

(** ** [_put] (lines 33-52) *)

(** [d < completion.length - 1], on integers as in the source (the right
    side is -1 for the empty string). *)
Definition before_last (completion : jsstring) (d : nat) : bool :=
  (Z.of_nat d <? Z.of_nat (List.length completion) - 1)%Z.

(** [_put(node, completion, d)] returns the node it was given, updated, or
    the node it allocated.  The source assigns to its parameter [node] when
    it is null: [node0] is the argument, [node] the variable after that
    assignment.  The recursion ends because a call either descends into a
    child of an existing node or, on a null reference, moves to the next
    index below [completion.length - 1]. *)
Equations? _put (node : Node) (completion : jsstring) (d : nat) : Node
  by wf (node_count node + (List.length completion - d)) lt :=
_put node0 completion d :=
  let c := char_at completion d in
  let node := if is_null node0 then new_Node c else node0 in
  match Bool.bool_dec (js_lt c (node_c node)) true with
  | left _ => set_left node (_put (node_left node) completion d)
  | right _ =>
    match Bool.bool_dec (js_gt c (node_c node)) true with
    | left _ => set_right node (_put (node_right node) completion d)
    | right _ =>
      match Bool.bool_dec (before_last completion d) true with
      | left _ => set_mid node (_put (node_mid node) completion (d + 1))
      | right _ => set_isCompletion node (JBool true)
      end
    end
  end.
Proof.
  - destruct node0; simpl in *; [|lia].
    subst c node. simpl in *.
    destruct (char_at completion d); simpl in *;
      rewrite ?N.ltb_irrefl in *; discriminate.
  - destruct node0; simpl in *; [|lia].
    subst c node. unfold js_gt in *. simpl in *.
    destruct (char_at completion d); simpl in *;
      rewrite ?N.ltb_irrefl in *; discriminate.
  - unfold before_last in *.
    match goal with H : (_ <? _)%Z = true |- _ => apply Z.ltb_lt in H end.
    destruct node0; simpl in *; lia.
Qed.

(** The unfolding equation of [_put]: the body does not depend on which
    termination proofs the recursive calls are given. *)
Next Obligation.
  unfold _put. rewrite Subterm.FixWf_unfold.
  - reflexivity.
  - intros x f g H. unfold _put_functional. cbv zeta.
    repeat (destruct (bool_dec _ _);
            [rewrite H; do 2 f_equal; apply Peano_dec.le_unique|]).
    reflexivity.
Defined.

(** ** [_get] (lines 54-69) *)

(** Returns the node reached, or [null]. *)
Fixpoint _get (node : Node) (prefix : jsstring) (d : nat) : Node :=
  match node with
  | null => null
  | mkNode nc l m r _ =>
    let c := char_at prefix d in
    if js_lt c nc then _get l prefix d
    else if js_gt c nc then _get r prefix d
    else if before_last prefix d then _get m prefix (d + 1)
    else node
  end.

(** ** The completer object: [this.root] and [this.size] *)

(** [this.root] is [undefined] until the first insertion; [undefined] and
    [null] are both falsy and are not told apart by the code. *)
Record Completer : Type := mkCompleter {
  root : Node;
  size : nat
}.

Definition empty_Completer : Completer := mkCompleter null 0.

(** [contains] (lines 71-77) *)
Definition contains (this : Completer) (completion : jsstring) : jsval :=
  let node := _get (root this) completion 0 in
  if is_null node then JBool false
  else node_isCompletion node.

(** [addCompletion] (lines 79-84) *)
Definition addCompletion (this : Completer) (completion : jsstring) : Completer :=
  let size1 :=
    if negb (truthy (contains this completion)) then size this + 1
    else size this in
  mkCompleter (_put (root this) completion 0) size1.

(** ** [collectCompletions] (lines 86-106) *)

(** [limit && completions.length == limit].  The limit is an optional
    non-negative integer; [None] is an absent limit. *)
Definition limit_reached (completions : list jsstring) (limit : option nat) : bool :=
  match limit with
  | None => false
  | Some k => negb (k =? 0) && (List.length completions =? k)
  end.

(** The array [completions] is mutated in place by [push]; it is threaded
    through the traversal and returned.  The function is only ever called
    on a reference that passed a null check. *)
Fixpoint collectCompletions (node : Node) (prefix : jsstring)
    (completions : list jsstring) (limit : option nat) : list jsstring :=
  match node with
  | null => completions
  | mkNode c l m r f =>
    if limit_reached completions limit then completions
    else
      let completions1 :=
        if truthy f then completions ++ [js_append_char prefix c]
        else completions in
      let completions2 :=
        if is_null l then completions1
        else collectCompletions l prefix completions1 limit in
      let completions3 :=
        if is_null m then completions2
        else collectCompletions m (js_append_char prefix c) completions2 limit in
      if is_null r then completions3
      else collectCompletions r prefix completions3 limit
  end.

(** ** [getCompletions] (lines 108-130) *)

(** Both arguments may be absent ([None]). [!prefix] holds for an absent
    prefix and for the empty string. *)
Definition getCompletions (this : Completer) (prefix : option jsstring)
    (limit : option nat) : list jsstring :=
  match prefix with
  | None => []
  | Some [] => []
  | Some p =>
    let prefixNode := _get (root this) p 0 in
    if is_null prefixNode then []
    else
      let completions :=
        if truthy (node_isCompletion prefixNode) then [p] else [] in
      if is_null (node_mid prefixNode) then completions
      else collectCompletions (node_mid prefixNode) p completions limit
  end.

(** ** The constructor (lines 132-162) *)

(** [getRandomIndex]: [draws] is the sequence of values that successive
    calls of [getRandomInt(0, list.length)] return (the floating point
    arithmetic on [Math.random()] is not modelled); [indexCache] holds the
    indices already handed out.  The do-while loop consumes draws until one
    is not cached.  [None]: the draws ran out while the loop was still
    rejecting. *)
Fixpoint getRandomIndex (draws : list nat) (indexCache : list nat)
  : option (nat * list nat * list nat) :=
  match draws with
  | [] => None
  | index :: rest =>
    if existsb (Nat.eqb index) indexCache then getRandomIndex rest indexCache
    else Some (index, rest, index :: indexCache)
  end.

(** The while loop of [_constructor]; [remaining] is
    [completions.length - totalCompletions].  [None]: the loop did not end
    on the draws given, or a draw was not an index of [completions] (which
    [getRandomInt(0, completions.length)] never returns). *)
Fixpoint _constructor (remaining : nat) (that : Completer)
    (completions : list jsstring) (draws indexCache : list nat)
  : option Completer :=
  match remaining with
  | 0 => Some that
  | S k =>
    match getRandomIndex draws indexCache with
    | None => None
    | Some (i, draws1, indexCache1) =>
      match nth_error completions i with
      | None => None
      | Some s =>
        _constructor k (addCompletion that s) completions draws1 indexCache1
      end
    end
  end.

(** [new Completer(completions)], given the draws of the random source. *)
Definition new_Completer (completions : list jsstring) (draws : list nat)
  : option Completer :=
  _constructor (List.length completions) empty_Completer completions draws [].

(** A sequence of [addCompletion] calls. *)
Definition addCompletions (this : Completer) (ss : list jsstring) : Completer :=
  fold_left addCompletion ss this.

(** * Definitions for the proofs *)

(** ** Structural presentation of the descent

    The pair [(completion, d)] of [_put] and [_get] is determined by the
    character [completion[d]] and the characters after it.  The functions
    below recurse on the node alone; they are shown equal to [_put] and
    [_get] and carry the proofs. *)

(** The nodes [_put] allocates from a null reference. *)
Fixpoint chain (c : option char) (rest : list char) : Node :=
  match rest with
  | [] => mkNode c null null null (JBool true)
  | c1 :: rest1 => mkNode c null (chain (Some c1) rest1) null JNull
  end.

Fixpoint put_s (node : Node) (c : option char) (rest : list char) : Node :=
  match node with
  | null => chain c rest
  | mkNode nc l m r f =>
    if js_lt c nc then mkNode nc (put_s l c rest) m r f
    else if js_gt c nc then mkNode nc l m (put_s r c rest) f
    else match rest with
         | [] => mkNode nc l m r (JBool true)
         | c1 :: rest1 => mkNode nc l (put_s m (Some c1) rest1) r f
         end
  end.

Fixpoint get_s (node : Node) (c : option char) (rest : list char) : Node :=
  match node with
  | null => null
  | mkNode nc l m r _ =>
    if js_lt c nc then get_s l c rest
    else if js_gt c nc then get_s r c rest
    else match rest with
         | [] => node
         | c1 :: rest1 => get_s m (Some c1) rest1
         end
  end.

(** ** The traversal and the invariants *)

(** The strings pushed by an unlimited traversal, in the order of the
    pushes: the node's own string, then the left, middle and right
    subtrees. *)
Fixpoint pushed (node : Node) (prefix : jsstring) : list jsstring :=
  match node with
  | null => []
  | mkNode c l m r f =>
    (if truthy f then [js_append_char prefix c] else [])
      ++ pushed l prefix
      ++ pushed m (js_append_char prefix c)
      ++ pushed r prefix
  end.

(** The characters of the nodes linked to a node through [left] and
    [right] only: the alternatives at one character position. *)
Fixpoint level_chars (node : Node) : list (option char) :=
  match node with
  | null => []
  | mkNode c l _ r _ => level_chars l ++ c :: level_chars r
  end.

(** Search-tree ordering at every node: the alternatives under [left] are
    less than the node's character, those under [right] greater. *)
Fixpoint bst (node : Node) : bool :=
  match node with
  | null => true
  | mkNode c l m r _ =>
    forallb (fun x => js_lt x c) (level_chars l)
    && forallb (fun x => js_gt x c) (level_chars r)
    && bst l && bst m && bst r
  end.

(** Every node carries a character (no [undefined]). *)
Fixpoint defined (node : Node) : bool :=
  match node with
  | null => true
  | mkNode c l m r _ =>
    match c with Some _ => true | None => false end
    && defined l && defined m && defined r
  end.

(** [isCompletion] is only ever [null] or [true]. *)
Fixpoint flags_ok (node : Node) : bool :=
  match node with
  | null => true
  | mkNode _ l m r f =>
    match f with JBool false => false | _ => true end
    && flags_ok l && flags_ok m && flags_ok r
  end.

(** Every node is marked or has a middle child: each node lies on the path
    of a stored string. *)
Fixpoint live (node : Node) : bool :=
  match node with
  | null => true
  | mkNode _ l m r f =>
    (truthy f || negb (is_null m)) && live l && live m && live r
  end.

(** Number of nodes whose [isCompletion] is [true]. *)
Fixpoint count_completions (node : Node) : nat :=
  match node with
  | null => 0
  | mkNode _ l m r f =>
    (if truthy f then 1 else 0)
    + count_completions l + count_completions m + count_completions r
  end.

(** ** Stored strings *)

(** [x.startsWith(q)] *)
Fixpoint starts_with (x q : jsstring) {struct q} : bool :=
  match q with
  | [] => true
  | a :: q1 =>
    match x with
    | [] => false
    | b :: x1 => N.eqb a b && starts_with x1 q1
    end
  end.

(** What [getCompletions] returns from the node [_get] reached, without a
    limit: the prefix itself when the node is marked, then the traversal of
    the middle subtree. *)
Definition found (n : Node) (q : jsstring) : list jsstring :=
  (if truthy (node_isCompletion n) then [q] else []) ++ pushed (node_mid n) q.

(** ** Counting distinct strings *)

Definition jsstring_eq_dec : forall a b : jsstring, {a = b} + {a <> b} :=
  list_eq_dec N.eq_dec.

Definition distinct_count (ss : list jsstring) : nat :=
  List.length (nodup jsstring_eq_dec ss).

(** ** Tries built from non-empty strings *)

(** What holds of a completer in which the strings [ss], none of them
    empty, have been inserted. *)
Record trie_inv (ss : list jsstring) (this : Completer) : Prop := {
  inv_bst : bst (root this) = true;
  inv_defined : defined (root this) = true;
  inv_flags : flags_ok (root this) = true;
  inv_live : live (root this) = true;
  inv_stored : forall x, In x (pushed (root this) []) <-> In x ss;
  inv_count : size this = count_completions (root this);
  inv_size : size this = distinct_count ss
}.

Definition nonempty (s : jsstring) : Prop := s <> [].

(** ** Lexical order of the result *)

(** [a < b] on strings: code units compared from the left, a proper prefix
    first. *)
Fixpoint js_string_lt (a b : jsstring) : bool :=
  match a, b with
  | _, [] => false
  | [], _ :: _ => true
  | x :: a1, y :: b1 => (x <? y)%N || ((x =? y)%N && js_string_lt a1 b1)
  end.

(** Strictly ascending: every element is less than all the later ones. *)
Fixpoint ascending (l : list jsstring) : bool :=
  match l with
  | [] => true
  | a :: l1 => forallb (js_string_lt a) l1 && ascending l1
  end.

(** ** Prefix completeness *)

(** [getCompletions(p)] returns exactly the strings of [stored] that start
    with [p]. *)
Definition completes_exactly (stored : list jsstring) (this : Completer)
    (p : jsstring) : Prop :=
  forall x, In x (getCompletions this (Some p) None)
            <-> In x stored /\ starts_with x p = true.

(** ** Membership *)

(** [contains] as a boolean membership test: [true] on the stored strings,
    [false] on all the others. *)
Definition contains_is_membership (stored : list jsstring) (this : Completer)
  : Prop :=
  forall s,
    (In s stored -> contains this s = JBool true)
    /\ (~ In s stored -> contains this s = JBool false).

(** ** Order of the strings returned *)

(** [x] occurs in [l] at an earlier position than some occurrence of [y]. *)
Definition occurs_before (x y : jsstring) (l : list jsstring) : Prop :=
  exists l1 l2 l3, l = l1 ++ x :: l2 ++ y :: l3.

(** No node has a left child. *)
Fixpoint no_left (node : Node) : bool :=
  match node with
  | null => true
  | mkNode _ l m r _ => is_null l && no_left m && no_left r
  end.

(** * Lemmas *)

(** ** [_put] and [_get] by structural recursion *)

Lemma js_lt_irrefl (a : option char) : js_lt a a = false.
Proof. destruct a as [x|]; simpl; [apply N.ltb_irrefl | reflexivity]. Qed.

#[local] Arguments skipn : simpl never.

Lemma skipn_nth_error (A : Type) (s : list A) (k : nat) (x : A) :
  nth_error s k = Some x -> skipn k s = x :: skipn (S k) s.
Proof.
  revert s. induction k as [|k IH]; intros [|y s] E; try discriminate.
  - injection E as ->. reflexivity.
  - change (skipn k s = x :: skipn (S k) s). apply IH. exact E.
Qed.

Lemma before_last_true (s : jsstring) (d : nat) :
  before_last s d = true ->
  exists x, char_at s (d + 1) = Some x /\
            skipn (S d) s = x :: skipn (S (d + 1)) s.
Proof.
  unfold before_last, char_at. intros H. apply Z.ltb_lt in H.
  assert (Hd : d + 1 < List.length s) by lia.
  destruct (nth_error s (d + 1)) as [x|] eqn:E.
  - exists x. split; [reflexivity|].
    replace (S d) with (d + 1) by lia. apply skipn_nth_error. exact E.
  - apply nth_error_None in E. lia.
Qed.

Lemma before_last_false (s : jsstring) (d : nat) :
  before_last s d <> true -> skipn (S d) s = [].
Proof.
  unfold before_last. intros H. apply skipn_all2.
  destruct (Z.ltb_spec (Z.of_nat d) (Z.of_nat (List.length s) - 1)); [congruence | lia].
Qed.

Lemma _put_null (s : jsstring) (n d : nat) :
  List.length s - d <= n ->
  _put null s d = chain (char_at s d) (skipn (S d) s).
Proof.
  revert d. induction n as [|n IH]; intros d Hn; rewrite _put_equation_1;
    cbv zeta; cbn [is_null new_Node node_c node_mid set_mid set_isCompletion];
    rewrite js_lt_irrefl; unfold js_gt; rewrite js_lt_irrefl;
    destruct (bool_dec false true) as [Hf|_]; try discriminate;
    destruct (bool_dec (before_last s d) true) as [Hb|Hb];
    try (rewrite (before_last_false _ _ Hb); reflexivity).
  - exfalso. unfold before_last in Hb. apply Z.ltb_lt in Hb. lia.
  - destruct (before_last_true _ _ Hb) as (x & Hx & Hs).
    rewrite Hs, IH, Hx.
    + reflexivity.
    + unfold before_last in Hb. apply Z.ltb_lt in Hb. lia.
Qed.

(** [_put] is [put_s] at the character under the index and the characters
    after it. *)
Lemma _put_put_s (node : Node) (s : jsstring) (d : nat) :
  _put node s d = put_s node (char_at s d) (skipn (S d) s).
Proof.
  revert d. induction node as [|nc l IHl m IHm r IHr f]; intros d.
  - apply _put_null with (n := List.length s - d). lia.
  - rewrite _put_equation_1. simpl.
    destruct (bool_dec (js_lt (char_at s d) nc) true) as [H1|H1].
    + rewrite H1, IHl. reflexivity.
    + apply not_true_is_false in H1. rewrite H1.
      destruct (bool_dec (js_gt (char_at s d) nc) true) as [H2|H2].
      * rewrite H2, IHr. reflexivity.
      * apply not_true_is_false in H2. rewrite H2.
        destruct (bool_dec (before_last s d) true) as [Hb|Hb].
        -- destruct (before_last_true _ _ Hb) as (x & Hx & Hs).
           rewrite Hs, IHm, Hx. reflexivity.
        -- rewrite (before_last_false _ _ Hb). reflexivity.
Qed.

Lemma _get_get_s (node : Node) (s : jsstring) (d : nat) :
  _get node s d = get_s node (char_at s d) (skipn (S d) s).
Proof.
  revert d. induction node as [|nc l IHl m IHm r IHr f]; intros d; simpl.
  - reflexivity.
  - destruct (js_lt (char_at s d) nc); [apply IHl|].
    destruct (js_gt (char_at s d) nc); [apply IHr|].
    destruct (before_last s d) eqn:Hb.
    + destruct (before_last_true _ _ Hb) as (x & Hx & Hs).
      rewrite Hs, IHm, Hx. reflexivity.
    + rewrite before_last_false; [reflexivity | congruence].
Qed.

(** ** The traversal of [collectCompletions] *)

Lemma collect_guard (node : Node) (p : jsstring) (acc : list jsstring)
    (limit : option nat) :
  (if is_null node then acc else collectCompletions node p acc limit)
  = collectCompletions node p acc limit.
Proof. destruct node; reflexivity. Qed.

Lemma collect_unlimited (node : Node) :
  forall p acc, collectCompletions node p acc None = acc ++ pushed node p.
Proof.
  induction node as [|c l IHl m IHm r IHr f]; intros p acc; simpl.
  - now rewrite app_nil_r.
  - rewrite !collect_guard, IHr, IHm, IHl.
    destruct (truthy f); simpl; now rewrite <- ?app_assoc.
Qed.

Lemma collect_limit_zero (node : Node) :
  forall p acc,
    collectCompletions node p acc (Some 0) = collectCompletions node p acc None.
Proof.
  induction node as [|c l IHl m IHm r IHr f]; intros p acc; simpl.
  - reflexivity.
  - rewrite !collect_guard, IHl, IHm, IHr. reflexivity.
Qed.

Lemma firstn_firstn_app (A : Type) (k : nat) (xs ys : list A) :
  firstn k (firstn k xs ++ ys) = firstn k (xs ++ ys).
Proof.
  destruct (Nat.le_gt_cases (List.length xs) k) as [H|H].
  - now rewrite firstn_all2 with (l := xs).
  - rewrite !firstn_app, firstn_firstn, Nat.min_id.
    rewrite length_firstn, Nat.min_l by lia.
    replace (k - List.length xs) with 0 by lia.
    now rewrite Nat.sub_diag.
Qed.

Lemma limit_reached_spec (acc : list jsstring) (k : nat) :
  1 <= k -> limit_reached acc (Some k) = (List.length acc =? k).
Proof.
  intros Hk. unfold limit_reached.
  destruct (Nat.eqb_spec k 0); [lia | reflexivity].
Qed.

(** With a positive limit, and no more strings than the limit to start
    with, the limited traversal yields the first [k] strings of the
    unlimited one. *)
Lemma collect_limited (k : nat) (Hk : 1 <= k) (node : Node) :
  forall p acc,
    List.length acc <= k ->
    collectCompletions node p acc (Some k)
    = firstn k (collectCompletions node p acc None).
Proof.
  induction node as [|c l IHl m IHm r IHr f]; intros p acc Hacc.
  - simpl. now rewrite firstn_all2.
  - cbn [collectCompletions]. rewrite !collect_guard.
    rewrite limit_reached_spec by assumption. cbn [limit_reached].
    destruct (Nat.eqb_spec (List.length acc) k) as [E|E].
    + rewrite !collect_unlimited, <- E.
      destruct (truthy f); rewrite <- ?app_assoc;
        rewrite firstn_app, firstn_all, Nat.sub_diag;
        simpl; now rewrite app_nil_r.
    + set (acc1 := if truthy f then acc ++ [js_append_char p c] else acc).
      assert (H1 : List.length acc1 <= k).
      { subst acc1. destruct (truthy f); [rewrite length_app; simpl|]; lia. }
      rewrite IHl by assumption.
      rewrite IHm by apply firstn_le_length.
      rewrite IHr by apply firstn_le_length.
      rewrite !collect_unlimited.
      rewrite firstn_firstn_app, <- (app_assoc (firstn k _)).
      rewrite firstn_firstn_app. now rewrite <- !app_assoc.
Qed.

(** ** Invariants kept by [_put] *)

#[local] Arguments js_lt : simpl never.
#[local] Arguments js_gt : simpl never.

Ltac split_andb :=
  repeat match goal with
         | H : _ && _ = true |- _ => apply andb_true_iff in H; destruct H
         | |- _ && _ = true => apply andb_true_iff; split
         end.

Lemma level_chars_chain (c : option char) (rest : list char) :
  level_chars (chain c rest) = [c].
Proof. destruct rest; reflexivity. Qed.

Lemma level_chars_put (node : Node) (c : option char) (rest : list char) :
  forall x, In x (level_chars (put_s node c rest)) ->
            x = c \/ In x (level_chars node).
Proof.
  induction node as [|nc l IHl m _ r IHr f]; intros x; simpl.
  - rewrite level_chars_chain. simpl. intuition.
  - destruct (js_lt c nc); [|destruct (js_gt c nc); [|destruct rest]];
      simpl; rewrite !in_app_iff; simpl; intuition.
    + apply IHl in H0. intuition.
    + apply IHr in H. intuition.
Qed.

Lemma bst_chain (rest : list char) : forall c, bst (chain c rest) = true.
Proof. induction rest as [|c1 rest IH]; intros c; simpl; [|rewrite IH]; reflexivity. Qed.

Lemma forallb_level_chars_put (P : option char -> bool) (node : Node)
    (c : option char) (rest : list char) :
  P c = true ->
  forallb P (level_chars node) = true ->
  forallb P (level_chars (put_s node c rest)) = true.
Proof.
  intros Hc Hall. apply forallb_forall. intros x Hx.
  apply level_chars_put in Hx. destruct Hx as [->|Hx]; [assumption|].
  rewrite forallb_forall in Hall. now apply Hall.
Qed.

(** [_put] keeps the search-tree ordering. *)
Lemma bst_put_s (node : Node) :
  forall c rest, bst node = true -> bst (put_s node c rest) = true.
Proof.
  induction node as [|nc l IHl m IHm r IHr f]; intros c rest Hb; simpl.
  - apply bst_chain.
  - simpl in Hb. split_andb.
    destruct (js_lt c nc) eqn:Hlt; [|destruct (js_gt c nc) eqn:Hgt; [|destruct rest]];
      simpl; split_andb; auto using forallb_level_chars_put.
Qed.

Lemma defined_chain (rest : list char) :
  forall c, defined (chain (Some c) rest) = true.
Proof. induction rest as [|c1 rest IH]; intros c; simpl; [|rewrite IH]; reflexivity. Qed.

Lemma defined_put_s (node : Node) :
  forall c rest, defined node = true -> defined (put_s node (Some c) rest) = true.
Proof.
  induction node as [|nc l IHl m IHm r IHr f]; intros c rest Hd; simpl.
  - apply defined_chain.
  - simpl in Hd. split_andb.
    destruct (js_lt (Some c) nc); [|destruct (js_gt (Some c) nc); [|destruct rest]];
      simpl; split_andb; auto.
Qed.

Lemma flags_ok_chain (rest : list char) : forall c, flags_ok (chain c rest) = true.
Proof. induction rest as [|c1 rest IH]; intros c; simpl; [|rewrite IH]; reflexivity. Qed.

Lemma flags_ok_put_s (node : Node) :
  forall c rest, flags_ok node = true -> flags_ok (put_s node c rest) = true.
Proof.
  induction node as [|nc l IHl m IHm r IHr f]; intros c rest Hd; simpl.
  - apply flags_ok_chain.
  - simpl in Hd. split_andb.
    destruct (js_lt c nc); [|destruct (js_gt c nc); [|destruct rest]];
      simpl; split_andb; auto.
Qed.

Lemma live_chain (rest : list char) : forall c, live (chain c rest) = true.
Proof.
  induction rest as [|c1 rest IH]; intros c; simpl; [reflexivity|].
  rewrite IH. destruct rest; reflexivity.
Qed.

Lemma put_s_not_null (node : Node) (c : option char) (rest : list char) :
  is_null (put_s node c rest) = false.
Proof.
  destruct node as [|nc l m r f]; simpl.
  - destruct rest; reflexivity.
  - destruct (js_lt c nc); [|destruct (js_gt c nc); [|destruct rest]]; reflexivity.
Qed.

Lemma live_put_s (node : Node) :
  forall c rest, live node = true -> live (put_s node c rest) = true.
Proof.
  induction node as [|nc l IHl m IHm r IHr f]; intros c rest Hd; simpl.
  - apply live_chain.
  - simpl in Hd. split_andb.
    destruct (js_lt c nc); [|destruct (js_gt c nc); [|destruct rest]];
      simpl; split_andb; auto.
    rewrite put_s_not_null. apply orb_true_r.
Qed.

(** ** [_get] after [_put] *)

Ltac by_cases_put c nc rest :=
  destruct (js_lt c nc) eqn:?; [|destruct (js_gt c nc) eqn:?; [|destruct rest]].

Lemma get_s_chain (rest : list char) :
  forall c, node_isCompletion (get_s (chain c rest) c rest) = JBool true.
Proof.
  induction rest as [|c1 rest IH]; intros c; simpl;
    unfold js_gt; rewrite js_lt_irrefl; [reflexivity | apply IH].
Qed.

(** The node [_get] reaches for a string just put is marked. *)
Lemma get_s_put_s_same (node : Node) :
  forall c rest,
    node_isCompletion (get_s (put_s node c rest) c rest) = JBool true.
Proof.
  induction node as [|nc l IHl m IHm r IHr f]; intros c rest; simpl.
  - apply get_s_chain.
  - by_cases_put c nc rest; simpl;
      repeat match goal with H : _ = _ |- _ => rewrite H end; auto.
Qed.

(** Putting a string whose node is already marked changes nothing. *)
Lemma put_s_marked (node : Node) :
  forall c rest,
    node_isCompletion (get_s node c rest) = JBool true ->
    put_s node c rest = node.
Proof.
  induction node as [|nc l IHl m IHm r IHr f]; intros c rest; simpl.
  - discriminate.
  - by_cases_put c nc rest; simpl; intros H; f_equal; auto.
Qed.

(** A marked node stays reachable and marked through later insertions. *)
Lemma get_s_put_s_other (node : Node) :
  forall c rest c' rest',
    node_isCompletion (get_s node c' rest') = JBool true ->
    node_isCompletion (get_s (put_s node c rest) c' rest') = JBool true.
Proof.
  induction node as [|nc l IHl m IHm r IHr f]; intros c rest c' rest'; simpl.
  - discriminate.
  - by_cases_put c nc rest; simpl;
      destruct (js_lt c' nc); auto;
      destruct (js_gt c' nc); auto;
      destruct rest'; simpl; auto.
Qed.

Lemma count_completions_chain (rest : list char) :
  forall c, count_completions (chain c rest) = 1.
Proof. induction rest as [|c1 rest IH]; intros c; simpl; [|rewrite IH]; reflexivity. Qed.

(** [_put] marks one more node exactly when the node it reaches was absent
    or unmarked. *)
Lemma count_completions_put_s (node : Node) :
  forall c rest,
    count_completions (put_s node c rest)
    = count_completions node
      + (if truthy (node_isCompletion (get_s node c rest)) then 0 else 1).
Proof.
  induction node as [|nc l IHl m IHm r IHr f]; intros c rest; simpl.
  - apply count_completions_chain.
  - by_cases_put c nc rest; simpl;
      rewrite ?IHl, ?IHm, ?IHr; try lia.
    destruct (truthy f); lia.
Qed.

Lemma length_pushed (node : Node) :
  forall p, List.length (pushed node p) = count_completions node.
Proof.
  induction node as [|c l IHl m IHm r IHr f]; intros p; simpl.
  - reflexivity.
  - rewrite !length_app, IHl, IHm, IHr. destruct (truthy f); simpl; lia.
Qed.

(** ** The strings below a node *)

Lemma starts_with_spec (q : jsstring) :
  forall x, starts_with x q = true <-> exists r, x = q ++ r.
Proof.
  induction q as [|a q IH]; intros x; simpl.
  - split; [intros _; now exists x | reflexivity].
  - destruct x as [|b x].
    + split; [discriminate | intros [r Hr]; discriminate].
    + rewrite andb_true_iff, N.eqb_eq, IH. split.
      * intros [-> [r ->]]. now exists r.
      * intros [r Hr]. injection Hr as -> ->. split; [reflexivity | now exists r].
Qed.

Lemma app_cons_cancel (p : jsstring) (z c : char) (r1 rest r0 : list char) :
  p ++ z :: r1 = (p ++ c :: rest) ++ r0 -> z = c /\ r1 = rest ++ r0.
Proof.
  rewrite <- app_assoc. intros H. apply app_inv_head in H.
  simpl in H. injection H as -> ->. split; reflexivity.
Qed.

Lemma js_lt_Some (a b : char) : js_lt (Some a) (Some b) = (a <? b)%N.
Proof. reflexivity. Qed.

Lemma js_same (c y : char) :
  js_lt (Some c) (Some y) = false -> js_gt (Some c) (Some y) = false -> y = c.
Proof.
  unfold js_gt. rewrite !js_lt_Some. intros H1 H2.
  apply N.ltb_ge in H1, H2. lia.
Qed.

Lemma in_own (b : bool) (q x : jsstring) :
  In x (if b then [q] else []) <-> b = true /\ x = q.
Proof. destruct b; simpl; intuition congruence. Qed.

(** Every pushed string extends the prefix the traversal was entered with
    by a character of the entry level. *)
Lemma pushed_shape (node : Node) :
  defined node = true ->
  forall p x, In x (pushed node p) ->
    exists z r, In (Some z) (level_chars node) /\ x = p ++ z :: r.
Proof.
  induction node as [|nc l IHl m IHm r IHr f]; intros Hd p x; simpl.
  - intros [].
  - simpl in Hd. split_andb. destruct nc as [y|]; [|discriminate].
    rewrite !in_app_iff, in_own. simpl.
    intros [[_ ->]|[Hin|[Hin|Hin]]].
    + exists y, []. rewrite in_app_iff. simpl. auto.
    + destruct (IHl ltac:(assumption) _ _ Hin) as (z & r0 & Hz & ->).
      exists z, r0. rewrite in_app_iff. auto.
    + destruct (IHm ltac:(assumption) _ _ Hin) as (z & r0 & Hz & ->).
      exists y, (z :: r0). rewrite in_app_iff, <- app_assoc. simpl. auto.
    + destruct (IHr ltac:(assumption) _ _ Hin) as (z & r0 & Hz & ->).
      exists z, r0. rewrite in_app_iff. simpl. auto.
Qed.

Lemma pushed_chain (rest : list char) :
  forall c p, pushed (chain (Some c) rest) p = [p ++ c :: rest].
Proof.
  induction rest as [|c1 rest IH]; intros c p; simpl.
  - reflexivity.
  - rewrite IH, <- app_assoc. reflexivity.
Qed.

(** The strings below a node after [_put]: the new one and the old ones. *)
Lemma pushed_put_s (node : Node) :
  defined node = true ->
  forall c rest p x,
    In x (pushed (put_s node (Some c) rest) p)
    <-> x = p ++ c :: rest \/ In x (pushed node p).
Proof.
  induction node as [|nc l IHl m IHm r IHr f]; intros Hd c rest p x.
  - simpl. rewrite pushed_chain. simpl. intuition.
  - simpl in Hd. split_andb. destruct nc as [y|]; [|discriminate].
    simpl. by_cases_put (Some c) (Some y) rest; simpl;
      rewrite !in_app_iff, !in_own, ?IHl, ?IHm, ?IHr by assumption;
      try tauto.
    + assert (y = c) by (now apply js_same). subst y.
      destruct (truthy f); intuition congruence.
    + assert (y = c) by (now apply js_same). subst y.
      rewrite <- app_assoc. simpl. tauto.
Qed.

(** Where a pushed string sits, by its character after the prefix. *)
Lemma pushed_select (y : char) (l m r : Node) (f : jsval) (p x : jsstring)
    (z : char) (r1 : list char) :
  bst (mkNode (Some y) l m r f) = true ->
  defined (mkNode (Some y) l m r f) = true ->
  In x (pushed (mkNode (Some y) l m r f) p) ->
  x = p ++ z :: r1 ->
  ((z < y)%N -> In x (pushed l p)) /\
  ((y < z)%N -> In x (pushed r p)) /\
  (z = y -> (r1 = [] /\ truthy f = true) \/ In x (pushed m (p ++ [y]))).
Proof.
  simpl. intros Hb Hd Hin Hx. split_andb.
  rewrite !in_app_iff, in_own in Hin.
  destruct Hin as [[Hf E]|[H'|[H'|H']]].
  - rewrite E in Hx. apply app_inv_head in Hx. injection Hx as <- <-.
    repeat split; intros; try lia. left. split; [reflexivity | assumption].
  - destruct (pushed_shape l ltac:(assumption) _ _ H') as (z2 & r2 & Hz & E).
    rewrite E in Hx. apply app_inv_head in Hx. injection Hx as -> ->.
    match goal with H : forallb _ (level_chars l) = true |- _ =>
      rewrite forallb_forall in H; apply H in Hz end.
    rewrite js_lt_Some in Hz. apply N.ltb_lt in Hz.
    repeat split; intros; try lia. assumption.
  - destruct (pushed_shape m ltac:(assumption) _ _ H') as (z2 & r2 & Hz & E).
    rewrite E, <- app_assoc in Hx. apply app_inv_head in Hx.
    injection Hx as <- <-.
    repeat split; intros; try lia. now right.
  - destruct (pushed_shape r ltac:(assumption) _ _ H') as (z2 & r2 & Hz & E).
    rewrite E in Hx. apply app_inv_head in Hx. injection Hx as -> ->.
    match goal with H : forallb _ (level_chars r) = true |- _ =>
      rewrite forallb_forall in H; apply H in Hz end.
    unfold js_gt in Hz. rewrite js_lt_Some in Hz. apply N.ltb_lt in Hz.
    repeat split; intros; try lia. assumption.
Qed.

Lemma pushed_prefix (node : Node) :
  forall p x, In x (pushed node p) -> exists r, x = p ++ r.
Proof.
  induction node as [|nc l IHl m IHm r IHr f]; intros p x; simpl.
  - intros [].
  - rewrite !in_app_iff, in_own. intros [[_ ->]|[Hin|[Hin|Hin]]]; eauto.
    + destruct nc; simpl; eauto.
    + apply IHm in Hin. destruct Hin as [r0 ->].
      destruct nc; simpl; rewrite <- app_assoc; eauto.
Qed.

(** In an ordered trie without [undefined] characters, the node [_get]
    reaches for [q = p ++ c :: rest] gives exactly the stored strings that
    start with [q]. *)
Lemma get_s_spec (node : Node) :
  bst node = true -> defined node = true ->
  forall c rest p x,
    In x (found (get_s node (Some c) rest) (p ++ c :: rest))
    <-> In x (pushed node p) /\ exists r0, x = (p ++ c :: rest) ++ r0.
Proof.
  induction node as [|nc l IHl m IHm r IHr f]; intros Hb Hd c rest p x.
  - simpl. tauto.
  - destruct nc as [y|]; [|simpl in Hd; discriminate].
    pose proof (fun Hin z r1 => @pushed_select y l m r f p x z r1 Hb Hd Hin) as Hsel.
    assert (Hbd : (bst l = true /\ defined l = true) /\
                  (bst m = true /\ defined m = true) /\
                  (bst r = true /\ defined r = true))
      by (simpl in Hb, Hd; split_andb; auto).
    destruct Hbd as ((Hbl & Hdl) & (Hbm & Hdm) & (Hbr & Hdr)).
    cbn [get_s]. rewrite !js_lt_Some. unfold js_gt. rewrite !js_lt_Some.
    destruct (N.ltb_spec c y) as [Hlt|Hge].
    { (* descend left *)
      rewrite IHl by assumption. split.
      - intros [Hin Hpre]. split; [|assumption].
        simpl. rewrite !in_app_iff. auto.
      - intros [Hin [r0 Hpre]]. split; [|now exists r0].
        rewrite <- app_assoc in Hpre. simpl in Hpre.
        destruct (Hsel Hin _ _ Hpre) as (Hl & _ & _). now apply Hl. }
    destruct (N.ltb_spec y c) as [Hgt|Hle].
    { (* descend right *)
      rewrite IHr by assumption. split.
      - intros [Hin Hpre]. split; [|assumption].
        simpl. rewrite !in_app_iff. auto.
      - intros [Hin [r0 Hpre]]. split; [|now exists r0].
        rewrite <- app_assoc in Hpre. simpl in Hpre.
        destruct (Hsel Hin _ _ Hpre) as (_ & Hr & _). now apply Hr. }
    assert (y = c) by lia. subst y. clear Hge Hle.
    destruct rest as [|c1 rest1].
    + (* the node itself *)
      unfold found. cbn [node_isCompletion node_mid].
      rewrite in_app_iff, in_own. split.
      * intros [[Hf ->]|Hin].
        -- split; [|exists []; now rewrite app_nil_r].
           simpl. rewrite !in_app_iff, in_own. auto.
        -- split; [|now apply pushed_prefix with (node := m)].
           simpl. rewrite !in_app_iff. auto.
      * intros [Hin [r0 Hpre]].
        rewrite <- app_assoc in Hpre. simpl in Hpre.
        destruct (Hsel Hin _ _ Hpre) as (_ & _ & Hm).
        destruct (Hm eq_refl) as [[-> Hf]|Hin']; [left | right]; auto.
    + (* descend into the middle subtree *)
      replace (p ++ c :: c1 :: rest1) with ((p ++ [c]) ++ c1 :: rest1)
        by (now rewrite <- app_assoc).
      rewrite IHm by assumption. split.
      * intros [Hin Hpre]. split; [|assumption].
        simpl. rewrite !in_app_iff. auto.
      * intros [Hin [r0 Hpre]]. split; [|now exists r0].
        rewrite <- !app_assoc in Hpre. simpl in Hpre.
        destruct (Hsel Hin _ _ Hpre) as (_ & _ & Hm).
        destruct (Hm eq_refl) as [[E _]|Hin']; [discriminate | assumption].
Qed.

Lemma pushed_longer (node : Node) :
  forall p x, In x (pushed node p) -> List.length p < List.length x.
Proof.
  induction node as [|nc l IHl m IHm r IHr f]; intros p x; simpl.
  - intros [].
  - assert (Hp : List.length p < List.length (js_append_char p nc))
      by (destruct nc; simpl; rewrite length_app; simpl; lia).
    rewrite !in_app_iff, in_own. intros [[_ ->]|[Hin|[Hin|Hin]]]; auto.
    apply IHm in Hin. lia.
Qed.

(** Membership through [_get]: the node reached is marked exactly when the
    string is among the pushed ones. *)
Lemma get_s_marked_iff (node : Node) (c : char) (rest : list char) (p : jsstring) :
  bst node = true -> defined node = true ->
  truthy (node_isCompletion (get_s node (Some c) rest)) = true
  <-> In (p ++ c :: rest) (pushed node p).
Proof.
  intros Hb Hd.
  pose proof (get_s_spec node Hb Hd c rest p (p ++ c :: rest)) as H.
  unfold found in H. rewrite in_app_iff, in_own in H. split.
  - intros Hf. apply H. auto.
  - intros Hin. destruct H as [_ H].
    destruct H as [[Hf _]|Hl].
    + split; [assumption | exists []; now rewrite app_nil_r].
    + assumption.
    + apply pushed_longer in Hl. lia.
Qed.

(** ** [contains] and [addCompletion] *)

Lemma root_addCompletion (this : Completer) (s : jsstring) :
  root (addCompletion this s) = put_s (root this) (char_at s 0) (skipn 1 s).
Proof. unfold addCompletion. simpl. apply _put_put_s. Qed.

Lemma contains_get_s (this : Completer) (s : jsstring) :
  contains this s
  = let node := get_s (root this) (char_at s 0) (skipn 1 s) in
    if is_null node then JBool false else node_isCompletion node.
Proof. unfold contains. now rewrite _get_get_s. Qed.

Lemma truthy_contains (this : Completer) (s : jsstring) :
  truthy (contains this s)
  = truthy (node_isCompletion (get_s (root this) (char_at s 0) (skipn 1 s))).
Proof.
  rewrite contains_get_s. cbv zeta.
  destruct (get_s (root this) (char_at s 0) (skipn 1 s)); reflexivity.
Qed.

Lemma contains_true_iff (this : Completer) (s : jsstring) :
  contains this s = JBool true
  <-> node_isCompletion (get_s (root this) (char_at s 0) (skipn 1 s)) = JBool true.
Proof.
  rewrite contains_get_s. cbv zeta.
  destruct (get_s (root this) (char_at s 0) (skipn 1 s)); simpl;
    [split; discriminate | tauto].
Qed.

Lemma size_addCompletion (this : Completer) (s : jsstring) :
  size (addCompletion this s)
  = size this + (if truthy (contains this s) then 0 else 1).
Proof.
  unfold addCompletion. simpl. destruct (truthy (contains this s)); simpl; lia.
Qed.

Lemma addCompletions_app (this : Completer) (ss1 ss2 : list jsstring) :
  addCompletions this (ss1 ++ ss2) = addCompletions (addCompletions this ss1) ss2.
Proof. apply fold_left_app. Qed.

(** ** Counting distinct strings *)

Lemma distinct_count_same (ss1 ss2 : list jsstring) :
  (forall x, In x ss1 <-> In x ss2) ->
  distinct_count ss1 = distinct_count ss2.
Proof.
  intros H. unfold distinct_count. apply Permutation_length.
  apply NoDup_Permutation; try apply NoDup_nodup.
  intros x. now rewrite !nodup_In.
Qed.

Lemma distinct_count_snoc (ss : list jsstring) (s : jsstring) :
  distinct_count (ss ++ [s])
  = distinct_count ss + (if in_dec jsstring_eq_dec s ss then 0 else 1).
Proof.
  rewrite (@distinct_count_same (ss ++ [s]) (s :: ss)).
  - unfold distinct_count. simpl.
    destruct (in_dec jsstring_eq_dec s ss); simpl; lia.
  - intros x. rewrite in_app_iff. simpl. tauto.
Qed.

(** ** Completers built from non-empty strings *)

Lemma trie_inv_empty : trie_inv [] empty_Completer.
Proof. constructor; simpl; reflexivity. Qed.

Lemma trie_inv_same (ss1 ss2 : list jsstring) (this : Completer) :
  (forall x, In x ss1 <-> In x ss2) -> trie_inv ss1 this -> trie_inv ss2 this.
Proof.
  intros Hs [H1 H2 H3 H4 H5 H6 H7]. constructor; auto.
  - intros x. now rewrite H5.
  - rewrite H7. now apply distinct_count_same.
Qed.

(** In such a completer, [contains] is truthy exactly on the inserted
    strings (for a non-empty argument). *)
Lemma trie_inv_contains (ss : list jsstring) (this : Completer)
    (c : char) (rest : list char) :
  trie_inv ss this ->
  truthy (contains this (c :: rest)) = true <-> In (c :: rest) ss.
Proof.
  intros I. rewrite truthy_contains, <- (inv_stored I).
  apply (@get_s_marked_iff (root this) c rest []); apply I.
Qed.

Lemma trie_inv_add (ss : list jsstring) (this : Completer) (s : jsstring) :
  trie_inv ss this -> s <> [] -> trie_inv (ss ++ [s]) (addCompletion this s).
Proof.
  intros I Hs. destruct s as [|c rest]; [congruence|]. clear Hs.
  pose proof (trie_inv_contains c rest I) as Hc.
  destruct I as [H1 H2 H3 H4 H5 H6 H7].
  constructor; rewrite ?root_addCompletion, ?size_addCompletion;
    change (char_at (c :: rest) 0) with (Some c);
    change (skipn 1 (c :: rest)) with rest.
  - now apply bst_put_s.
  - now apply defined_put_s.
  - now apply flags_ok_put_s.
  - now apply live_put_s.
  - intros x. rewrite pushed_put_s, in_app_iff, H5 by assumption.
    simpl. intuition.
  - rewrite count_completions_put_s, truthy_contains, H6. reflexivity.
  - rewrite distinct_count_snoc, H7.
    destruct (in_dec jsstring_eq_dec (c :: rest) ss) as [Hi|Hi].
    + apply Hc in Hi. now rewrite Hi.
    + destruct (truthy (contains this (c :: rest))); [|reflexivity].
      exfalso. apply Hi, Hc. reflexivity.
Qed.

Lemma trie_inv_addCompletions (adds : list jsstring) :
  forall ss this,
    trie_inv ss this -> Forall nonempty adds ->
    trie_inv (ss ++ adds) (addCompletions this adds).
Proof.
  induction adds as [|s adds IH]; intros ss this I Hne.
  - now rewrite app_nil_r.
  - inversion Hne as [|? ? Hs Hne']; subst.
    change (s :: adds) with ([s] ++ adds). rewrite app_assoc.
    apply IH; [|assumption]. now apply trie_inv_add.
Qed.

(** ** The constructor inserts a permutation of its input *)

Lemma getRandomIndex_spec (draws indexCache : list nat) :
  forall i draws1 indexCache1,
    getRandomIndex draws indexCache = Some (i, draws1, indexCache1) ->
    ~ In i indexCache /\ indexCache1 = i :: indexCache.
Proof.
  induction draws as [|index rest IH]; intros i d1 c1; simpl.
  - discriminate.
  - destruct (existsb (Nat.eqb index) indexCache) eqn:E.
    + apply IH.
    + intros H. injection H as <- <- <-. split; [|reflexivity].
      intros Hin. apply not_true_iff_false in E. apply E.
      apply existsb_exists. exists index. split; [assumption|].
      apply Nat.eqb_refl.
Qed.

(** The indices the loop picks: as many as posed, all different, all fresh,
    all within the input. *)
Lemma _constructor_picks (completions : list jsstring) (remaining : nat) :
  forall that draws indexCache this,
    _constructor remaining that completions draws indexCache = Some this ->
    exists picks,
      List.length picks = remaining /\ NoDup picks /\
      (forall i, In i picks ->
                 ~ In i indexCache /\ i < List.length completions) /\
      this = addCompletions that (map (fun i => nth i completions []) picks).
Proof.
  induction remaining as [|k IH]; intros that draws cache this; simpl.
  - intros H. injection H as <-. exists [].
    split; [reflexivity|]. split; [constructor|].
    split; [intros i []|reflexivity].
  - destruct (getRandomIndex draws cache) as [[[i d1] c1]|] eqn:E; [|discriminate].
    destruct (nth_error completions i) as [s|] eqn:En; [|discriminate].
    intros H. apply IH in H. destruct H as (picks & Hl & Hnd & Hin & ->).
    apply getRandomIndex_spec in E. destruct E as [Hi ->].
    exists (i :: picks).
    split; [simpl; now rewrite Hl|]. split; [|split].
    + constructor; [|assumption].
      intros Hip. apply Hin in Hip. destruct Hip as [Hip _].
      apply Hip. now left.
    + intros j [<-|Hj]; split.
      * assumption.
      * apply nth_error_Some. congruence.
      * apply Hin in Hj. destruct Hj as [Hj _]. intros Hc. apply Hj. now right.
      * now apply Hin in Hj.
    + simpl. now rewrite (nth_error_nth _ _ _ En).
Qed.

Lemma map_nth_seq_from (A : Type) (d : A) (l : list A) :
  forall pre,
    map (fun i => nth i (pre ++ l) d) (seq (List.length pre) (List.length l)) = l.
Proof.
  induction l as [|a l IH]; intros pre; simpl.
  - reflexivity.
  - rewrite app_nth2, Nat.sub_diag by lia. simpl. f_equal.
    specialize (IH (pre ++ [a])).
    rewrite <- app_assoc, length_app, Nat.add_1_r in IH. exact IH.
Qed.

Lemma map_nth_seq (A : Type) (d : A) (l : list A) :
  map (fun i => nth i l d) (seq 0 (List.length l)) = l.
Proof. exact (map_nth_seq_from d l []). Qed.

(** A completer returned by the constructor is the empty completer after
    [addCompletion] of the input strings in some order. *)
Lemma new_Completer_order (completions : list jsstring) (draws : list nat)
    (this : Completer) :
  new_Completer completions draws = Some this ->
  exists order,
    Permutation order completions /\
    this = addCompletions empty_Completer order.
Proof.
  unfold new_Completer. intros H.
  apply _constructor_picks in H. destruct H as (picks & Hl & Hnd & Hin & ->).
  exists (map (fun i => nth i completions []) picks). split; [|reflexivity].
  apply Permutation_trans
    with (map (fun i => nth i completions []) (seq 0 (List.length completions))).
  - apply Permutation_map. apply NoDup_Permutation_bis.
    + assumption.
    + rewrite length_seq. lia.
    + intros i Hi. apply in_seq. apply Hin in Hi. lia.
  - rewrite map_nth_seq. apply Permutation_refl.
Qed.

(** Any sequence of distinct valid draws is accepted: the loop ends and
    inserts the strings in the order drawn. *)
Lemma _constructor_draws (completions : list jsstring) (picks : list nat) :
  forall that indexCache,
    NoDup picks ->
    (forall i, In i picks -> ~ In i indexCache /\ i < List.length completions) ->
    _constructor (List.length picks) that completions picks indexCache
    = Some (addCompletions that (map (fun i => nth i completions []) picks)).
Proof.
  induction picks as [|i picks IH]; intros that cache Hnd Hin; simpl.
  - reflexivity.
  - destruct (Hin i (or_introl eq_refl)) as [Hic Hlen].
    destruct (existsb (Nat.eqb i) cache) eqn:E.
    + exfalso. apply existsb_exists in E. destruct E as (j & Hj & Hij).
      apply Nat.eqb_eq in Hij. subst j. contradiction.
    + destruct (nth_error completions i) as [s|] eqn:En.
      * rewrite (nth_error_nth _ _ _ En). apply IH.
        -- now inversion Hnd.
        -- intros j Hj. split; [|apply Hin; now right].
           intros [<-|Hc]; [now inversion Hnd|].
           destruct (Hin j (or_intror Hj)) as [Hjc _]. contradiction.
      * apply nth_error_None in En. lia.
Qed.

(** The do-while loop ends on a draw that is not cached, as soon as there
    is one among the draws. *)
Lemma getRandomIndex_finds (draws indexCache : list nat) (i : nat) :
  In i draws -> ~ In i indexCache ->
  exists j draws1,
    getRandomIndex draws indexCache = Some (j, draws1, j :: indexCache)
    /\ In j draws /\ ~ In j indexCache
    /\ (forall x, In x draws1 -> In x draws)
    /\ (forall x, In x draws -> In x indexCache \/ x = j \/ In x draws1).
Proof.
  induction draws as [|index rest IH]; intros Hi Hc; [destruct Hi|].
  simpl. destruct (existsb (Nat.eqb index) indexCache) eqn:E.
  - apply existsb_exists in E. destruct E as (y & Hy & Ey).
    apply Nat.eqb_eq in Ey. subst y.
    destruct Hi as [->|Hi]; [contradiction|].
    destruct (IH Hi Hc) as (j & d1 & Hg & Hj & Hjc & Hsub & Hcov).
    exists j, d1. repeat split; auto.
    intros x [<-|Hx]; auto.
  - exists index, rest. repeat split; auto.
    + intros Hin. apply not_true_iff_false in E. apply E.
      apply existsb_exists. exists index. split; [assumption | apply Nat.eqb_refl].
    + intros x [<-|Hx]; auto.
Qed.

Lemma fresh_index (indexCache : list nat) (n : nat) :
  NoDup indexCache -> List.length indexCache < n ->
  exists i, i < n /\ ~ In i indexCache.
Proof.
  intros Hnd Hlen.
  destruct (find (fun i => negb (existsb (Nat.eqb i) indexCache)) (seq 0 n))
    as [i|] eqn:F.
  - apply find_some in F. destruct F as [Hi Hf]. apply in_seq in Hi.
    exists i. split; [lia|]. intros Hin.
    apply negb_true_iff, not_true_iff_false in Hf. apply Hf.
    apply existsb_exists. exists i. split; [assumption | apply Nat.eqb_refl].
  - exfalso.
    assert (Hincl : incl (seq 0 n) indexCache).
    { intros i Hi. pose proof (find_none _ _ F i Hi) as Hf.
      apply negb_false_iff, existsb_exists in Hf.
      destruct Hf as (y & Hy & Ey). apply Nat.eqb_eq in Ey. now subst y. }
    apply NoDup_incl_length in Hincl; [|apply seq_NoDup].
    rewrite length_seq in Hincl. lia.
Qed.

(** The loop of the constructor ends when every index that is still to be
    handed out occurs among the draws. *)
Lemma _constructor_returns (completions : list jsstring) (remaining : nat) :
  forall that draws indexCache,
    NoDup indexCache ->
    remaining + List.length indexCache = List.length completions ->
    (forall i, In i draws -> i < List.length completions) ->
    (forall i, i < List.length completions -> In i indexCache \/ In i draws) ->
    exists this,
      _constructor remaining that completions draws indexCache = Some this.
Proof.
  induction remaining as [|k IH]; intros that draws cache Hnd Hlen Hd Hcov.
  - now exists that.
  - destruct (@fresh_index cache (List.length completions) Hnd ltac:(lia))
      as (i & Hi & Hic).
    assert (Hin : In i draws) by (destruct (Hcov i Hi); [contradiction | assumption]).
    destruct (@getRandomIndex_finds draws cache i Hin Hic)
      as (j & d1 & Hg & Hj & Hjc & Hsub & Hcov1).
    simpl. rewrite Hg.
    destruct (nth_error completions j) as [s|] eqn:En.
    + apply IH.
      * now constructor.
      * simpl. lia.
      * intros x Hx. apply Hd, Hsub, Hx.
      * intros x Hx. destruct (Hcov x Hx) as [Hc|Hdx].
        -- left. now right.
        -- destruct (Hcov1 x Hdx) as [Hc|[->|H1]].
           ++ left. now right.
           ++ left. now left.
           ++ now right.
    + apply nth_error_None in En. apply Hd in Hj. lia.
Qed.

(** The constructor returns once every index has been drawn. *)
Lemma new_Completer_returns (completions : list jsstring) (draws : list nat) :
  (forall i, In i draws -> i < List.length completions) ->
  (forall i, i < List.length completions -> In i draws) ->
  exists this, new_Completer completions draws = Some this.
Proof.
  intros Hd Hcov. unfold new_Completer. apply _constructor_returns.
  - constructor.
  - simpl. lia.
  - assumption.
  - intros i Hi. right. now apply Hcov.
Qed.

Lemma new_Completer_in_order (completions : list jsstring) :
  new_Completer completions (seq 0 (List.length completions))
  = Some (addCompletions empty_Completer completions).
Proof.
  unfold new_Completer.
  rewrite <- (length_seq (List.length completions) 0) at 1.
  rewrite _constructor_draws.
  - now rewrite map_nth_seq.
  - apply seq_NoDup.
  - intros i Hi. apply in_seq in Hi. split; [intros [] | lia].
Qed.

(** ** Invariants that hold whatever strings are inserted *)

Lemma addCompletions_preserves (P : Node -> bool) :
  (forall node c rest, P node = true -> P (put_s node c rest) = true) ->
  forall ss this,
    P (root this) = true -> P (root (addCompletions this ss)) = true.
Proof.
  intros HP. induction ss as [|s ss IH]; intros this H; simpl.
  - assumption.
  - apply IH. rewrite root_addCompletion. now apply HP.
Qed.

Lemma new_Completer_preserves (P : Node -> bool) :
  (forall node c rest, P node = true -> P (put_s node c rest) = true) ->
  P null = true ->
  forall completions draws this adds,
    new_Completer completions draws = Some this ->
    P (root (addCompletions this adds)) = true.
Proof.
  intros HP H0 completions draws this adds H.
  apply new_Completer_order in H. destruct H as (order & _ & ->).
  rewrite <- addCompletions_app. now apply addCompletions_preserves.
Qed.

Lemma flags_ok_get_s (node : Node) :
  flags_ok node = true ->
  forall c rest, node_isCompletion (get_s node c rest) <> JBool false.
Proof.
  induction node as [|nc l IHl m IHm r IHr f]; intros Hf c rest; simpl.
  - discriminate.
  - simpl in Hf. split_andb.
    by_cases_put c nc rest; auto.
    simpl. destruct f as [|[|]]; discriminate.
Qed.

Lemma live_get_s (node : Node) :
  live node = true -> forall c rest, live (get_s node c rest) = true.
Proof.
  induction node as [|nc l IHl m IHm r IHr f]; intros Hl c rest.
  - reflexivity.
  - pose proof Hl as Hl'. simpl in Hl. split_andb.
    simpl. by_cases_put c nc rest; auto.
Qed.

Lemma live_pushed (node : Node) :
  live node = true -> is_null node = false ->
  forall p, pushed node p <> [].
Proof.
  induction node as [|nc l IHl m IHm r IHr f]; intros Hl Hn p; simpl.
  - discriminate.
  - simpl in Hl. split_andb.
    destruct (truthy f); [discriminate|]. simpl in *.
    intros E. apply app_eq_nil in E. destruct E as [_ E].
    apply app_eq_nil in E. destruct E as [E _].
    apply (IHm ltac:(assumption)) in E; [assumption|].
    now destruct (is_null m).
Qed.

Lemma live_found (n : Node) (q : jsstring) :
  live n = true -> is_null n = false -> found n q <> [].
Proof.
  destruct n as [|nc l m r f]; [discriminate|]. intros Hl _.
  unfold found. simpl in *. split_andb.
  destruct (truthy f); [discriminate|]. simpl in *.
  apply live_pushed; [assumption | now destruct (is_null m)].
Qed.

(** [getCompletions] without a limit, in terms of [found]. *)
Lemma getCompletions_found (this : Completer) (c : char) (rest : list char) :
  getCompletions this (Some (c :: rest)) None
  = found (get_s (root this) (Some c) rest) (c :: rest).
Proof.
  unfold getCompletions, found. rewrite _get_get_s.
  change (char_at (c :: rest) 0) with (Some c).
  change (skipn 1 (c :: rest)) with rest.
  destruct (get_s (root this) (Some c) rest) as [|nc l m r f]; [reflexivity|].
  cbn [is_null node_isCompletion node_mid].
  rewrite collect_guard, collect_unlimited. reflexivity.
Qed.

(** ** Inserted strings are contained *)

Lemma contains_addCompletion_same (this : Completer) (s : jsstring) :
  contains (addCompletion this s) s = JBool true.
Proof.
  apply contains_true_iff. rewrite root_addCompletion.
  apply get_s_put_s_same.
Qed.

Lemma addCompletion_contained (this : Completer) (s : jsstring) :
  contains this s = JBool true -> addCompletion this s = this.
Proof.
  intros H. destruct this as [rt sz]. unfold addCompletion.
  rewrite H. simpl. f_equal.
  rewrite _put_put_s. apply put_s_marked.
  now apply contains_true_iff in H.
Qed.

(** The invariant holds of every completer built from non-empty strings by
    the constructor and later additions. *)
Lemma new_Completer_inv (completions : list jsstring) (draws : list nat)
    (this : Completer) (adds : list jsstring) :
  Forall nonempty completions -> Forall nonempty adds ->
  new_Completer completions draws = Some this ->
  trie_inv (completions ++ adds) (addCompletions this adds).
Proof.
  intros Hc Ha H.
  apply new_Completer_order in H. destruct H as (order & Hp & ->).
  apply trie_inv_same with (ss1 := order ++ adds).
  - intros x. rewrite !in_app_iff.
    split; (intros [Hx|Hx]; [left | now right]).
    + now apply Permutation_in with (l := order).
    + now apply Permutation_in with (l := completions); [apply Permutation_sym|].
  - apply trie_inv_addCompletions; [|assumption].
    rewrite <- (app_nil_l order).
    apply trie_inv_addCompletions; [apply trie_inv_empty|].
    apply (Permutation_Forall (Permutation_sym Hp)). assumption.
Qed.

Lemma contains_addCompletions_keep (ss : list jsstring) :
  forall this s,
    contains this s = JBool true ->
    contains (addCompletions this ss) s = JBool true.
Proof.
  induction ss as [|a ss IH]; intros this s H; simpl.
  - assumption.
  - apply IH. apply contains_true_iff. rewrite root_addCompletion.
    apply get_s_put_s_other. now apply contains_true_iff.
Qed.

(** Every inserted string is contained, whatever the strings are. *)
Lemma contains_inserted (ss : list jsstring) :
  forall this s, In s ss -> contains (addCompletions this ss) s = JBool true.
Proof.
  induction ss as [|a ss IH]; intros this s; simpl.
  - intros [].
  - intros [->|Hin].
    + apply contains_addCompletions_keep, contains_addCompletion_same.
    + now apply IH.
Qed.

(** Every string given to the constructor or added later is contained. *)
Lemma contains_built (completions : list jsstring) (draws : list nat)
    (this : Completer) (adds : list jsstring) (s : jsstring) :
  new_Completer completions draws = Some this ->
  In s (completions ++ adds) ->
  contains (addCompletions this adds) s = JBool true.
Proof.
  intros H Hin.
  destruct (new_Completer_order _ _ H) as (order & Hp & ->).
  rewrite <- addCompletions_app. apply contains_inserted.
  rewrite in_app_iff in *. destruct Hin as [Hin|Hin]; [left | now right].
  now apply Permutation_in with (l := completions); [apply Permutation_sym|].
Qed.

(** [size] counts the marked nodes, whatever strings are inserted. *)
Lemma size_count_addCompletions (ss : list jsstring) :
  forall this,
    size this = count_completions (root this) ->
    size (addCompletions this ss)
    = count_completions (root (addCompletions this ss)).
Proof.
  induction ss as [|s ss IH]; intros this H; simpl.
  - assumption.
  - apply IH.
    rewrite size_addCompletion, root_addCompletion, count_completions_put_s.
    now rewrite truthy_contains, H.
Qed.

(** ** No string is pushed twice *)

Lemma bst_get_s (node : Node) :
  bst node = true -> forall c rest, bst (get_s node c rest) = true.
Proof.
  induction node as [|nc l IHl m IHm r IHr f]; intros Hb c rest.
  - reflexivity.
  - pose proof Hb as Hb'. simpl in Hb. split_andb.
    simpl. by_cases_put c nc rest; auto.
Qed.

Lemma defined_get_s (node : Node) :
  defined node = true -> forall c rest, defined (get_s node c rest) = true.
Proof.
  induction node as [|nc l IHl m IHm r IHr f]; intros Hd c rest.
  - reflexivity.
  - pose proof Hd as Hd'. simpl in Hd. split_andb.
    simpl. by_cases_put c nc rest; auto.
Qed.

Lemma bst_defined_mid (n : Node) :
  bst n = true -> defined n = true ->
  bst (node_mid n) = true /\ defined (node_mid n) = true.
Proof.
  destruct n as [|nc l m r f]; simpl; intros Hb Hd; split_andb; auto.
Qed.

Ltac clash :=
  match goal with
  | E1 : ?x = ?p ++ _, E2 : ?x = ?p ++ _ |- _ =>
    rewrite E1 in E2; apply app_inv_head in E2;
    try discriminate; injection E2; intros; subst; lia
  end.

Lemma NoDup_pushed (node : Node) :
  bst node = true -> defined node = true ->
  forall p, NoDup (pushed node p).
Proof.
  induction node as [|nc l IHl m IHm r IHr f]; intros Hb Hd p;
    [constructor|].
  destruct nc as [y|]; [|simpl in Hd; discriminate].
  simpl in Hb, Hd. split_andb.
  assert (FL : forall x, In x (pushed l p) ->
                 exists z r1, x = p ++ z :: r1 /\ (z < y)%N).
  { intros x Hx.
    destruct (pushed_shape l ltac:(assumption) _ _ Hx) as (z & r1 & Hz & E).
    exists z, r1. split; [assumption|].
    match goal with H : forallb _ (level_chars l) = true |- _ =>
      rewrite forallb_forall in H; apply H in Hz end.
    rewrite js_lt_Some in Hz. now apply N.ltb_lt in Hz. }
  assert (FR : forall x, In x (pushed r p) ->
                 exists z r1, x = p ++ z :: r1 /\ (y < z)%N).
  { intros x Hx.
    destruct (pushed_shape r ltac:(assumption) _ _ Hx) as (z & r1 & Hz & E).
    exists z, r1. split; [assumption|].
    match goal with H : forallb _ (level_chars r) = true |- _ =>
      rewrite forallb_forall in H; apply H in Hz end.
    unfold js_gt in Hz. rewrite js_lt_Some in Hz. now apply N.ltb_lt in Hz. }
  assert (FM : forall x, In x (pushed m (p ++ [y])) ->
                 exists z r1, x = p ++ y :: z :: r1).
  { intros x Hx.
    destruct (pushed_shape m ltac:(assumption) _ _ Hx) as (z & r1 & _ & E).
    exists z, r1. now rewrite E, <- app_assoc. }
  simpl. apply NoDup_app; [| apply NoDup_app; [| apply NoDup_app |] |]; auto.
  - destruct (truthy f); repeat constructor. intros [].
  - intros x Hm Hr.
    destruct (FM x Hm) as (z & r1 & E1).
    destruct (FR x Hr) as (z2 & r2 & E2 & Hz2). clash.
  - intros x Hl Hmr. apply in_app_iff in Hmr.
    destruct (FL x Hl) as (z & r1 & E1 & Hz).
    destruct Hmr as [Hm|Hr].
    + destruct (FM x Hm) as (z2 & r2 & E2). clash.
    + destruct (FR x Hr) as (z2 & r2 & E2 & Hz2). clash.
  - intros x Ho Hrest. apply in_own in Ho. destruct Ho as [_ E1].
    rewrite !in_app_iff in Hrest. destruct Hrest as [Hl|[Hm|Hr]].
    + destruct (FL x Hl) as (z2 & r2 & E2 & Hz2). clash.
    + destruct (FM x Hm) as (z2 & r2 & E2). clash.
    + destruct (FR x Hr) as (z2 & r2 & E2 & Hz2). clash.
Qed.

Lemma NoDup_found (node : Node) (c : char) (rest : list char) :
  bst node = true -> defined node = true ->
  NoDup (found (get_s node (Some c) rest) (c :: rest)).
Proof.
  intros Hb Hd.
  destruct (@bst_defined_mid (get_s node (Some c) rest)) as [Hbm Hdm];
    [now apply bst_get_s | now apply defined_get_s |].
  unfold found. apply NoDup_app.
  - destruct (truthy _); repeat constructor. intros [].
  - now apply NoDup_pushed.
  - intros x Ho Hp. apply in_own in Ho. destruct Ho as [_ ->].
    apply pushed_longer in Hp. lia.
Qed.

(** In a completer built from the non-empty strings [ss], the unlimited
    result for a non-empty prefix: the stored strings that start with it,
    each once. *)
Lemma trie_inv_getCompletions (ss : list jsstring) (this : Completer)
    (c : char) (rest : list char) :
  trie_inv ss this ->
  NoDup (getCompletions this (Some (c :: rest)) None)
  /\ forall x, In x (getCompletions this (Some (c :: rest)) None)
               <-> In x ss /\ starts_with x (c :: rest) = true.
Proof.
  intros I. rewrite getCompletions_found. split.
  - apply NoDup_found; apply I.
  - intros x.
    rewrite (@get_s_spec _ (inv_bst I) (inv_defined I) c rest [] x).
    rewrite (inv_stored I), starts_with_spec. reflexivity.
Qed.

(** * Properties of the public operations *)

(** ** Lexical order of the result *)

(** C1. The result is not always ascending: [collectCompletions] pushes a
    node's own string before it visits the node's left subtree.  With "ab"
    inserted before "aa", [getCompletions("a")] is ["ab", "aa"]. *)
Theorem getCompletions_not_ascending :
  exists this,
    new_Completer (map js ["ab"; "aa"]%string) [0; 1] = Some this
    /\ this = addCompletions empty_Completer (map js ["ab"; "aa"]%string)
    /\ getCompletions this (Some (js "a")) None = map js ["ab"; "aa"]%string
    /\ js_string_lt (js "aa") (js "ab") = true
    /\ ascending (getCompletions this (Some (js "a")) None) = false.
Proof.
  eexists. split; [vm_compute; reflexivity|].
  repeat split; vm_compute; reflexivity.
Qed.

(** ** Prefix completeness *)

(** C2, as stated, fails at the empty prefix: every stored string starts
    with it, and the result is empty. *)
Lemma getCompletions_empty_prefix_incomplete :
  ~ completes_exactly [js "a"] (addCompletions empty_Completer [js "a"]) [].
Proof.
  intros H. destruct (H (js "a")) as [_ H1].
  apply H1. split; [now left | reflexivity].
Qed.

(** C2, amended. In a completer built by the constructor and by
    [addCompletion] calls from non-empty strings, [getCompletions(p)] for a
    non-empty [p] and no limit returns exactly the inserted strings that
    start with [p]: each of them, nothing else, and none twice. *)
Theorem getCompletions_exact (completions : list jsstring) (draws : list nat)
    (this : Completer) (adds : list jsstring) (p : jsstring) :
  Forall nonempty completions -> Forall nonempty adds ->
  new_Completer completions draws = Some this ->
  p <> [] ->
  completes_exactly (completions ++ adds) (addCompletions this adds) p
  /\ NoDup (getCompletions (addCompletions this adds) (Some p) None).
Proof.
  intros Hc Ha H Hp.
  pose proof (@new_Completer_inv _ _ _ adds Hc Ha H) as I.
  destruct p as [|c rest]; [congruence|]. split.
  - intros x. rewrite getCompletions_found.
    rewrite (@get_s_spec _ (inv_bst I) (inv_defined I) c rest [] x).
    rewrite (inv_stored I), starts_with_spec. reflexivity.
  - rewrite getCompletions_found.
    apply NoDup_found; [apply (inv_bst I) | apply (inv_defined I)].
Qed.

(** The strings of the README, drawn in the order "abc", "a", "def",
    "aaab", "aa", then "ab" added; the prefix is "aa". *)
Lemma getCompletions_exact_witness :
  let that :=
    addCompletions
      (addCompletions empty_Completer
         (map js ["abc"; "a"; "def"; "aaab"; "aa"]%string))
      [js "ab"] in
  completes_exactly
    (map js ["a"; "aa"; "aaab"; "abc"; "def"]%string ++ [js "ab"])
    that (js "aa")
  /\ NoDup (getCompletions that (Some (js "aa")) None).
Proof.
  apply (@getCompletions_exact
           (map js ["a"; "aa"; "aaab"; "abc"; "def"]%string) [3; 0; 3; 4; 2; 1]).
  - repeat constructor; discriminate.
  - repeat constructor; discriminate.
  - vm_compute. reflexivity.
  - discriminate.
Defined.

(** ** Membership *)

(** C3, as stated, fails on a proper prefix of a stored string: the node
    exists, its flag is [null], and [null] is what [contains] returns. *)
Lemma contains_prefix_is_null :
  ~ contains_is_membership [js "abc"] (addCompletions empty_Completer [js "abc"]).
Proof.
  intros H. destruct (H (js "ab")) as [_ H1].
  assert (Hn : ~ In (js "ab") [js "abc"]) by (intros [E|[]]; discriminate).
  apply H1 in Hn. vm_compute in Hn. discriminate.
Qed.

(** C3, amended. In a completer built by the constructor and by
    [addCompletion] calls, [contains(s)] is [true] for every inserted [s].
    When the inserted strings are non-empty, [contains(s)] for a non-empty
    [s] that was never inserted is falsy: [null] when some stored string
    starts with [s], [false] otherwise. *)
Theorem contains_membership (completions : list jsstring) (draws : list nat)
    (this : Completer) (adds : list jsstring) (s : jsstring) :
  new_Completer completions draws = Some this ->
  let that := addCompletions this adds in
  let stored := completions ++ adds in
  (In s stored -> contains that s = JBool true)
  /\ (Forall nonempty stored -> s <> [] -> ~ In s stored ->
      contains that s
      = if existsb (fun x => starts_with x s) stored then JNull
        else JBool false).
Proof.
  intros H that stored. split.
  - now apply contains_built with (draws := draws).
  - intros Hne Hs Hnin. subst stored. apply Forall_app in Hne.
    destruct Hne as [Hc Ha].
    pose proof (@new_Completer_inv _ _ _ adds Hc Ha H) as I. fold that in I.
    destruct s as [|c rest]; [congruence|]. clear Hs.
    pose proof (trie_inv_contains c rest I) as Hc'.
    pose proof (fun x => @get_s_spec _ (inv_bst I) (inv_defined I) c rest [] x)
      as Hspec.
    change ([] ++ c :: rest) with (c :: rest) in Hspec.
    rewrite contains_get_s in *. cbv zeta in *.
    change (char_at (c :: rest) 0) with (Some c) in *.
    change (skipn 1 (c :: rest)) with rest in *.
    pose proof (flags_ok_get_s _ (inv_flags I) (Some c) rest) as Hfl.
    pose proof (live_get_s _ (inv_live I) (Some c) rest) as Hlv.
    set (n := get_s (root that) (Some c) rest) in *.
    destruct (existsb (fun x => starts_with x (c :: rest)) (completions ++ adds))
      eqn:Ex.
    + apply existsb_exists in Ex. destruct Ex as (x & Hx & Hsw).
      apply starts_with_spec in Hsw.
      assert (Hf : In x (found n (c :: rest))) by (apply Hspec; rewrite (inv_stored I); auto).
      destruct n as [|nc l m r f]; [destruct Hf|].
      simpl in *. destruct f as [|[|]]; try reflexivity; try congruence.
      exfalso. apply Hnin, Hc'. reflexivity.
    + destruct (is_null n) eqn:En; [reflexivity|].
      exfalso. pose proof (@live_found n (c :: rest) Hlv En) as Hf.
      destruct (found n (c :: rest)) as [|x fs] eqn:Ef; [congruence|].
      destruct (Hspec x) as [Hx _]. destruct (Hx (or_introl eq_refl)) as [Hin Hsw].
      apply starts_with_spec in Hsw. apply (inv_stored I) in Hin.
      apply not_true_iff_false in Ex. apply Ex.
      apply existsb_exists. exists x. auto.
Qed.

Lemma contains_membership_witness :
  let that := addCompletions empty_Completer (map js ["abc"; "a"; "def"; "aaab"; "aa"]%string) in
  new_Completer (map js ["a"; "aa"; "aaab"; "abc"; "def"]%string) [3; 0; 3; 4; 2; 1]
  = Some that
  /\ contains that (js "aa") = JBool true
  /\ contains that (js "ab") = JNull
  /\ contains that (js "zz") = JBool false.
Proof.
  cbv zeta.
  assert (H : new_Completer (map js ["a"; "aa"; "aaab"; "abc"; "def"]%string)
                [3; 0; 3; 4; 2; 1]
              = Some (addCompletions empty_Completer
                        (map js ["abc"; "a"; "def"; "aaab"; "aa"]%string)))
    by (vm_compute; reflexivity).
  assert (Hne : Forall nonempty (map js ["a"; "aa"; "aaab"; "abc"; "def"]%string ++ []))
    by (repeat constructor; discriminate).
  split; [exact H|]. split; [|split].
  - apply (@contains_membership _ _ _ [] (js "aa") H).
    vm_compute. tauto.
  - apply (proj2 (@contains_membership _ _ _ [] (js "ab") H) Hne).
    + discriminate.
    + vm_compute. intuition discriminate.
  - apply (proj2 (@contains_membership _ _ _ [] (js "zz") H) Hne).
    + discriminate.
    + vm_compute. intuition discriminate.
Defined.

(** ** Size accounting *)

(** C4. For non-empty strings: the constructor returns as soon as every
    index of the input has been drawn, and a completer it returns has
    [size] equal to the number of distinct input strings.  After any
    further [addCompletion] calls, [size] is the number of distinct strings
    inserted and the number of nodes whose [isCompletion] is [true];
    [addCompletion] of a string not yet inserted adds 1 to [size], and of a
    string already inserted leaves it unchanged. *)
Theorem size_accounting (completions : list jsstring) (draws : list nat)
    (adds : list jsstring) (s : jsstring) :
  Forall nonempty completions -> Forall nonempty adds ->
  ((forall i, In i draws -> i < List.length completions) ->
   (forall i, i < List.length completions -> In i draws) ->
   exists this, new_Completer completions draws = Some this)
  /\ (forall this,
        new_Completer completions draws = Some this ->
        let that := addCompletions this adds in
        size this = distinct_count completions
        /\ size that = distinct_count (completions ++ adds)
        /\ size that = count_completions (root that)
        /\ (s <> [] -> ~ In s (completions ++ adds) ->
            size (addCompletion that s) = size that + 1)
        /\ (In s (completions ++ adds) ->
            size (addCompletion that s) = size that)).
Proof.
  intros Hc Ha. split; [apply new_Completer_returns|].
  intros this H that.
  pose proof (@new_Completer_inv _ _ _ [] Hc (Forall_nil _) H) as I0.
  pose proof (@new_Completer_inv _ _ _ adds Hc Ha H) as I. fold that in I.
  rewrite app_nil_r in I0. simpl in I0.
  split; [apply (inv_size I0)|].
  split; [apply (inv_size I)|].
  split; [apply (inv_count I)|].
  split.
  - intros Hs Hnin. rewrite size_addCompletion.
    destruct s as [|c rest]; [congruence|].
    destruct (truthy (contains that (c :: rest))) eqn:E; [|reflexivity].
    exfalso. apply Hnin. now apply (trie_inv_contains c rest I).
  - intros Hin. rewrite size_addCompletion.
    pose proof (@contains_built _ _ _ adds s H Hin) as Ht.
    fold that in Ht. rewrite Ht. simpl. lia.
Qed.

(** The input ["b", "a", "b", "ab"] with the draws 2, 2, 0, 3, 2, 1, then
    "a" and "c" added: the constructor returns with size 3, and the two
    additions bring it to 4. *)
Lemma size_accounting_witness :
  let completions := map js ["b"; "a"; "b"; "ab"]%string in
  let draws := [2; 2; 0; 3; 2; 1] in
  let adds := map js ["a"; "c"]%string in
  exists this,
    new_Completer completions draws = Some this
    /\ this = addCompletions empty_Completer (map js ["b"; "b"; "ab"; "a"]%string)
    /\ size this = 3
    /\ size (addCompletions this adds) = 4
    /\ count_completions (root (addCompletions this adds)) = 4
    /\ size (addCompletion (addCompletions this adds) (js "d")) = 5
    /\ size (addCompletion (addCompletions this adds) (js "ab")) = 4.
Proof.
  cbv zeta.
  assert (Hc : Forall nonempty (map js ["b"; "a"; "b"; "ab"]%string))
    by (repeat constructor; discriminate).
  assert (Ha : Forall nonempty (map js ["a"; "c"]%string))
    by (repeat constructor; discriminate).
  assert (Hv : forall i, In i [2; 2; 0; 3; 2; 1] ->
                         i < List.length (map js ["b"; "a"; "b"; "ab"]%string))
    by (intros i Hi; simpl in *; lia).
  assert (Hcov : forall i, i < List.length (map js ["b"; "a"; "b"; "ab"]%string) ->
                           In i [2; 2; 0; 3; 2; 1])
    by (intros i Hi; simpl in *; lia).
  destruct (@size_accounting _ [2; 2; 0; 3; 2; 1] _ (js "d") Hc Ha)
    as [Hret Hd].
  destruct (@size_accounting _ [2; 2; 0; 3; 2; 1] _ (js "ab") Hc Ha)
    as [_ Hab].
  destruct (Hret Hv Hcov) as [this Hthis].
  exists this. split; [exact Hthis|].
  destruct (Hd this Hthis) as (S0 & S1 & S2 & S3 & _).
  destruct (Hab this Hthis) as (_ & _ & _ & _ & S4).
  assert (E : this = addCompletions empty_Completer
                       (map js ["b"; "b"; "ab"; "a"]%string)).
  { assert (E0 : new_Completer (map js ["b"; "a"; "b"; "ab"]%string)
                   [2; 2; 0; 3; 2; 1]
                 = Some (addCompletions empty_Completer
                           (map js ["b"; "b"; "ab"; "a"]%string)))
      by (vm_compute; reflexivity).
    rewrite E0 in Hthis. now injection Hthis. }
  split; [exact E|].
  split; [exact S0|].
  split; [exact S1|].
  split; [rewrite <- S2; exact S1|].
  split.
  - rewrite S3; [rewrite S1; reflexivity | discriminate |].
    vm_compute. intuition discriminate.
  - rewrite S4; [exact S1|]. vm_compute. auto 10.
Defined.

(** ** The limit *)

(** C5. With a positive limit [k], [getCompletions(p, k)] returns at most
    [k] strings, and they are the first strings of the unlimited result:
    the unlimited result is the limited one followed by the strings that
    were not appended. *)
Theorem getCompletions_limit (this : Completer) (p : option jsstring) (k : nat) :
  1 <= k ->
  List.length (getCompletions this p (Some k)) <= k
  /\ getCompletions this p (Some k) = firstn k (getCompletions this p None)
  /\ exists beyond,
       getCompletions this p None = getCompletions this p (Some k) ++ beyond.
Proof.
  intros Hk.
  assert (E : getCompletions this p (Some k)
              = firstn k (getCompletions this p None)).
  { unfold getCompletions. destruct p as [[|c rest]|]; try now rewrite firstn_nil.
    destruct (_get (root this) (c :: rest) 0) as [|nc l m r f];
      [now rewrite firstn_nil|].
    cbn [is_null node_isCompletion node_mid].
    rewrite !collect_guard. apply collect_limited; [assumption|].
    destruct (truthy f); simpl; lia. }
  rewrite E. split; [apply firstn_le_length|]. split; [reflexivity|].
  exists (skipn k (getCompletions this p None)).
  symmetry. apply firstn_skipn.
Qed.

Lemma getCompletions_limit_witness :
  let this := addCompletions empty_Completer (map js ["a"; "aa"; "aaab"; "abc"; "def"]%string) in
  1 <= 2
  /\ getCompletions this (Some (js "a")) (Some 2) = map js ["a"; "aa"]%string
  /\ List.length (getCompletions this (Some (js "a")) (Some 2)) <= 2.
Proof.
  cbv zeta. split; [lia|]. split; [vm_compute; reflexivity|].
  apply (getCompletions_limit
           (addCompletions empty_Completer
              (map js ["a"; "aa"; "aaab"; "abc"; "def"]%string))
           (Some (js "a")) (k := 2)).
  lia.
Defined.

(** ** Idempotent insertion *)

(** C6. Adding a string that the completer already contains leaves the
    completer as it was, so every later [contains] and [getCompletions]
    answers as before. *)
Theorem addCompletion_idempotent (this : Completer) (s : jsstring) :
  contains this s = JBool true ->
  addCompletion this s = this
  /\ (forall q, contains (addCompletion this s) q = contains this q)
  /\ (forall p limit,
        getCompletions (addCompletion this s) p limit
        = getCompletions this p limit).
Proof.
  intros H. rewrite (addCompletion_contained _ _ H). auto.
Qed.

(** Inserting "aa" a second time. *)
Lemma addCompletion_idempotent_witness :
  let once := addCompletion (addCompletion empty_Completer (js "ab")) (js "aa") in
  let twice := addCompletion once (js "aa") in
  contains once (js "aa") = JBool true
  /\ twice = once
  /\ (forall q, contains twice q = contains once q)
  /\ (forall p limit, getCompletions twice p limit = getCompletions once p limit).
Proof.
  cbv zeta.
  split; [apply contains_addCompletion_same|].
  apply addCompletion_idempotent. apply contains_addCompletion_same.
Defined.

(** ** Search-tree ordering *)

(** C7. In every completer reached from the constructor by any sequence of
    [addCompletion] calls, each node's character is greater than the
    characters of the alternatives linked under [left] and less than those
    linked under [right] (the left/right chain of one character position);
    and [_put] keeps that ordering. *)
Theorem bst_invariant (completions : list jsstring) (draws : list nat)
    (this : Completer) (adds : list jsstring) :
  new_Completer completions draws = Some this ->
  bst (root (addCompletions this adds)) = true
  /\ (forall node s d, bst node = true -> bst (_put node s d) = true).
Proof.
  intros H. split.
  - revert H. apply new_Completer_preserves; [|reflexivity].
    intros node c rest. apply bst_put_s.
  - intros node s d Hb. rewrite _put_put_s. now apply bst_put_s.
Qed.

Lemma bst_invariant_witness :
  new_Completer (map js ["b"; "az"; "c"]%string) [1; 1; 0; 2]
  = Some (addCompletions empty_Completer (map js ["az"; "b"; "c"]%string))
  /\ bst (root (addCompletions
                  (addCompletions empty_Completer (map js ["az"; "b"; "c"]%string))
                  [js "ab"])) = true.
Proof.
  split; [vm_compute; reflexivity|].
  apply (@bst_invariant (map js ["b"; "az"; "c"]%string) [1; 1; 0; 2]).
  vm_compute. reflexivity.
Defined.

(** ** Empty prefix *)

(** C8. Whatever the completer holds and whatever the limit,
    [getCompletions] returns the empty sequence for the empty string and
    for an absent prefix. *)
Theorem getCompletions_empty_prefix (this : Completer) (limit : option nat) :
  getCompletions this (Some []) limit = []
  /\ getCompletions this None limit = [].
Proof. split; reflexivity. Qed.

(** ** A limit of zero *)

(** C9. A limit of 0 is falsy, so the early-stop test never fires:
    [getCompletions(p, 0)] is the unlimited result, not the empty one.  In
    a completer built from non-empty strings it returns, for a non-empty
    [p], every stored string that starts with [p]. *)
Theorem getCompletions_limit_zero (this : Completer) (p : option jsstring) :
  (forall completions, limit_reached completions (Some 0) = false)
  /\ getCompletions this p (Some 0) = getCompletions this p None
  /\ (forall completions draws built adds q,
        Forall nonempty completions -> Forall nonempty adds ->
        new_Completer completions draws = Some built ->
        q <> [] ->
        forall x,
          In x (getCompletions (addCompletions built adds) (Some q) (Some 0))
          <-> In x (completions ++ adds) /\ starts_with x q = true).
Proof.
  assert (Z : forall t q, getCompletions t q (Some 0) = getCompletions t q None).
  { intros t q. unfold getCompletions.
    destruct q as [[|c rest]|]; try reflexivity.
    destruct (_get (root t) (c :: rest) 0) as [|nc l m r f]; [reflexivity|].
    cbn [is_null node_isCompletion node_mid].
    rewrite !collect_guard. apply collect_limit_zero. }
  split; [reflexivity|]. split; [apply Z|].
  intros completions draws built adds q Hc Ha H Hq x.
  rewrite Z. destruct q as [|c rest]; [congruence|].
  pose proof (@new_Completer_inv _ _ _ adds Hc Ha H) as I.
  apply (trie_inv_getCompletions c rest I).
Qed.

(** The strings of the README with the limit 0: all four completions of
    "a" are returned. *)
Lemma getCompletions_limit_zero_witness :
  let completions := map js ["a"; "aa"; "aaab"; "abc"; "def"]%string in
  let draws := [3; 0; 3; 4; 2; 1] in
  exists this,
    new_Completer completions draws = Some this
    /\ getCompletions this (Some (js "a")) (Some 0)
       = map js ["a"; "aa"; "aaab"; "abc"]%string
    /\ getCompletions this (Some (js "a")) (Some 0)
       = getCompletions this (Some (js "a")) None
    /\ (In (js "aaab") (getCompletions this (Some (js "a")) (Some 0))
        <-> In (js "aaab") (completions ++ [])
            /\ starts_with (js "aaab") (js "a") = true).
Proof.
  cbv zeta.
  exists (addCompletions empty_Completer
            (map js ["abc"; "a"; "def"; "aaab"; "aa"]%string)).
  assert (H : new_Completer (map js ["a"; "aa"; "aaab"; "abc"; "def"]%string)
                [3; 0; 3; 4; 2; 1]
              = Some (addCompletions empty_Completer
                        (map js ["abc"; "a"; "def"; "aaab"; "aa"]%string)))
    by (vm_compute; reflexivity).
  split; [exact H|]. split; [vm_compute; reflexivity|].
  destruct (getCompletions_limit_zero
              (addCompletions empty_Completer
                 (map js ["abc"; "a"; "def"; "aaab"; "aa"]%string))
              (Some (js "a"))) as (_ & Z & Ex).
  split; [exact Z|].
  apply (Ex (map js ["a"; "aa"; "aaab"; "abc"; "def"]%string)
            [3; 0; 3; 4; 2; 1] _ [] (js "a")).
  - repeat constructor; discriminate.
  - constructor.
  - exact H.
  - discriminate.
Defined.

(** ** The three values of [contains] *)

(** C10. In a completer reached from the constructor by [addCompletion]
    calls: when the descent for [s] ends on a node whose [isCompletion] is
    still [null], [contains(s)] is [null]; [contains(s)] is [false] exactly
    when the descent finds no node. *)
Theorem contains_null_unmarked (completions : list jsstring) (draws : list nat)
    (this : Completer) (adds : list jsstring) (s : jsstring) :
  new_Completer completions draws = Some this ->
  let that := addCompletions this adds in
  let node := _get (root that) s 0 in
  (is_null node = false -> node_isCompletion node = JNull ->
   contains that s = JNull)
  /\ (contains that s = JBool false <-> is_null node = true)
  /\ (contains that s = JNull <->
      is_null node = false /\ node_isCompletion node = JNull).
Proof.
  intros H that node.
  assert (Hf : flags_ok (root that) = true).
  { revert H. apply new_Completer_preserves; [|reflexivity].
    intros n c rest. apply flags_ok_put_s. }
  assert (Hn : node_isCompletion node <> JBool false).
  { subst node. rewrite _get_get_s. now apply flags_ok_get_s. }
  unfold contains. fold node. cbv zeta.
  destruct node as [|nc l m r f]; simpl in *.
  - split; [discriminate|]. split; [tauto|].
    split; [discriminate | intros [E _]; discriminate].
  - split; [auto|]. split; [|tauto].
    split; [congruence | discriminate].
Qed.

(** "ab" in a completer that stores "abc": the node for "ab" exists and was
    never marked.  The three values are all reached. *)
Lemma contains_null_unmarked_witness :
  new_Completer [js "abc"] [0] = Some (addCompletions empty_Completer [js "abc"])
  /\ contains (addCompletions empty_Completer [js "abc"]) (js "ab") = JNull
  /\ contains (addCompletions empty_Completer [js "abc"]) (js "abc") = JBool true
  /\ contains (addCompletions empty_Completer [js "abc"]) (js "x") = JBool false.
Proof.
  split; [vm_compute; reflexivity|].
  split; [|split; vm_compute; reflexivity].
  destruct (@contains_null_unmarked [js "abc"] [0]
              (addCompletions empty_Completer [js "abc"]) [] (js "ab"))
    as [W _]; [vm_compute; reflexivity|].
  apply W; vm_compute; reflexivity.
Defined.

(** * Further properties of the code *)

(** ** The constructor *)

Lemma getRandomIndex_drawn (draws indexCache : list nat) :
  forall i draws1 indexCache1,
    getRandomIndex draws indexCache = Some (i, draws1, indexCache1) ->
    In i draws /\ (forall x, In x draws1 -> In x draws).
Proof.
  induction draws as [|index rest IH]; intros i d1 c1; simpl.
  - discriminate.
  - destruct (existsb (Nat.eqb index) indexCache).
    + intros H. apply IH in H. destruct H as [Hi Hsub]. auto.
    + intros H. injection H as <- <- <-. auto.
Qed.

(** The indices handed out by the loop are distinct, fresh, within the
    input, and all among the draws. *)
Lemma _constructor_drawn (completions : list jsstring) (remaining : nat) :
  forall that draws indexCache this,
    _constructor remaining that completions draws indexCache = Some this ->
    exists picks,
      List.length picks = remaining /\ NoDup picks /\
      (forall i, In i picks ->
                 ~ In i indexCache /\ In i draws
                 /\ i < List.length completions).
Proof.
  induction remaining as [|k IH]; intros that draws cache this; simpl.
  - intros _. exists []. split; [reflexivity|]. split; [constructor|].
    intros i [].
  - destruct (getRandomIndex draws cache) as [[[i d1] c1]|] eqn:E; [|discriminate].
    destruct (nth_error completions i) as [s|] eqn:En; [|discriminate].
    intros H. apply IH in H. destruct H as (picks & Hl & Hnd & Hin).
    destruct (getRandomIndex_spec _ _ E) as [Hi ->].
    destruct (getRandomIndex_drawn _ _ E) as [Hid Hsub].
    exists (i :: picks).
    split; [simpl; now rewrite Hl|]. split.
    + constructor; [|assumption].
      intros Hip. apply Hin in Hip. destruct Hip as [Hip _].
      apply Hip. now left.
    + intros j [<-|Hj].
      * split; [assumption|]. split; [assumption|].
        apply nth_error_Some. congruence.
      * destruct (Hin j Hj) as (Hjc & Hjd & Hjl).
        split; [intros Hc; apply Hjc; now right|]. auto.
Qed.

(** X1. A completer returned by the constructor is the empty completer
    after one [addCompletion] for each element of the input array, each
    taken once, in some order: nothing is skipped and nothing is inserted
    twice, whatever the random draws. *)
Theorem constructor_inserts_each_once (completions : list jsstring)
    (draws : list nat) (this : Completer) :
  new_Completer completions draws = Some this ->
  exists order,
    Permutation order completions
    /\ this = addCompletions empty_Completer order
    /\ size this <= List.length completions.
Proof.
  intros H. destruct (new_Completer_order _ _ H) as (order & Hp & ->).
  exists order. split; [assumption|]. split; [reflexivity|].
  rewrite <- (Permutation_length Hp).
  assert (G : forall ss t, size (addCompletions t ss) <= size t + List.length ss).
  { induction ss as [|s ss IH]; intros t; simpl; [lia|].
    specialize (IH (addCompletion t s)). rewrite size_addCompletion in IH.
    destruct (truthy (contains t s)); lia. }
  apply (G order empty_Completer).
Qed.

Lemma constructor_inserts_each_once_witness :
  exists order,
    Permutation order (map js ["b"; "a"; "b"]%string)
    /\ addCompletions empty_Completer (map js ["b"; "b"; "a"]%string)
       = addCompletions empty_Completer order
    /\ size (addCompletions empty_Completer (map js ["b"; "b"; "a"]%string)) <= 3.
Proof.
  apply (@constructor_inserts_each_once
           (map js ["b"; "a"; "b"]%string) [2; 2; 0; 2; 1]).
  vm_compute. reflexivity.
Defined.

(** X2. Given draws that are all indices of the input, the constructor
    returns exactly when every index of the input occurs among the draws:
    the do-while loop skips repeated draws and the while loop ends once
    each index has been handed out. *)
Theorem constructor_returns_iff (completions : list jsstring) (draws : list nat) :
  (forall i, In i draws -> i < List.length completions) ->
  (exists this, new_Completer completions draws = Some this)
  <-> (forall i, i < List.length completions -> In i draws).
Proof.
  intros Hd. split.
  - intros [this H] i Hi. unfold new_Completer in H.
    apply _constructor_drawn in H. destruct H as (picks & Hl & Hnd & Hin).
    assert (Hp : Permutation picks (seq 0 (List.length completions))).
    { apply NoDup_Permutation_bis.
      - assumption.
      - rewrite length_seq. lia.
      - intros j Hj. apply in_seq. apply Hin in Hj. lia. }
    apply Hin. apply (Permutation_in _ (Permutation_sym Hp)).
    apply in_seq. lia.
  - intros Hcov. now apply new_Completer_returns.
Qed.

Lemma constructor_returns_iff_witness :
  (exists this, new_Completer (map js ["b"; "a"; "c"]%string) [1; 1; 0; 1; 2] = Some this)
  <-> (forall i, i < 3 -> In i [1; 1; 0; 1; 2]).
Proof.
  apply (@constructor_returns_iff (map js ["b"; "a"; "c"]%string) [1; 1; 0; 1; 2]).
  intros i Hi. simpl in *. lia.
Defined.

(** ** Queries on any completer *)

(** [getCompletions] with a limit, from the result without one. *)
Lemma getCompletions_with_limit (this : Completer) (p : option jsstring) (k : nat) :
  getCompletions this p (Some k)
  = if k =? 0 then getCompletions this p None
    else firstn k (getCompletions this p None).
Proof.
  unfold getCompletions.
  destruct p as [[|c rest]|]; try (destruct (k =? 0); now rewrite ?firstn_nil).
  destruct (_get (root this) (c :: rest) 0) as [|nc l m r f];
    [destruct (k =? 0); now rewrite ?firstn_nil|].
  cbn [is_null node_isCompletion node_mid]. rewrite !collect_guard.
  destruct (Nat.eqb_spec k 0) as [->|Hk].
  - apply collect_limit_zero.
  - apply collect_limited; [lia|]. destruct (truthy f); simpl; lia.
Qed.

Lemma In_firstn (A : Type) (k : nat) (l : list A) (x : A) :
  In x (firstn k l) -> In x l.
Proof.
  intros H. rewrite <- (firstn_skipn k l). apply in_or_app. now left.
Qed.

Lemma getCompletions_limit_incl (this : Completer) (p : option jsstring)
    (limit : option nat) (x : jsstring) :
  In x (getCompletions this p limit) -> In x (getCompletions this p None).
Proof.
  destruct limit as [k|]; [|auto].
  rewrite getCompletions_with_limit.
  destruct (k =? 0); [auto | apply In_firstn].
Qed.

(** X3. A completer constructed from the empty array, whatever the draws,
    has size 0, answers [false] to [contains] for every string and returns
    no completion for any prefix and limit. *)
Theorem empty_input (draws : list nat) :
  exists this,
    new_Completer [] draws = Some this
    /\ size this = 0
    /\ (forall s, contains this s = JBool false)
    /\ (forall p limit, getCompletions this p limit = []).
Proof.
  exists empty_Completer. repeat split.
  intros [[|c rest]|] limit; reflexivity.
Qed.

(** X4. Whatever was inserted and whatever the limit, every string that
    [getCompletions(p)] returns starts with [p]. *)
Theorem getCompletions_start_with_prefix (this : Completer) (p : jsstring)
    (limit : option nat) (x : jsstring) :
  In x (getCompletions this (Some p) limit) -> starts_with x p = true.
Proof.
  intros H. apply getCompletions_limit_incl in H.
  destruct p as [|c rest]; [destruct H|].
  rewrite getCompletions_found in H. unfold found in H.
  apply starts_with_spec. apply in_app_iff in H. destruct H as [H|H].
  - apply in_own in H. destruct H as [_ ->]. exists []. now rewrite app_nil_r.
  - now apply pushed_prefix in H.
Qed.

Lemma getCompletions_start_with_prefix_witness :
  let this := addCompletions empty_Completer
                (map js [""; "abc"; "a"; "aaab"; "aa"]%string) in
  In (js "aaab") (getCompletions this (Some (js "aa")) (Some 2))
  /\ starts_with (js "aaab") (js "aa") = true.
Proof.
  cbv zeta.
  assert (H : In (js "aaab")
                (getCompletions
                   (addCompletions empty_Completer
                      (map js [""; "abc"; "a"; "aaab"; "aa"]%string))
                   (Some (js "aa")) (Some 2)))
    by (vm_compute; auto).
  split; [exact H|].
  exact (getCompletions_start_with_prefix _ _ _ _ H).
Defined.

(** X5. Limits nest: for [1 <= k1 <= k2] the result with limit [k1] is the
    first [k1] strings of the result with limit [k2], and a limit that is
    not below the number of matches returns them all. *)
Theorem getCompletions_limits_nest (this : Completer) (p : option jsstring)
    (k1 k2 : nat) :
  1 <= k1 -> k1 <= k2 ->
  getCompletions this p (Some k1) = firstn k1 (getCompletions this p (Some k2))
  /\ (List.length (getCompletions this p None) <= k1 ->
      getCompletions this p (Some k1) = getCompletions this p None).
Proof.
  intros H1 H12. rewrite !getCompletions_with_limit.
  destruct (Nat.eqb_spec k1 0); [lia|]. destruct (Nat.eqb_spec k2 0); [lia|].
  split.
  - rewrite firstn_firstn. now replace (Nat.min k1 k2) with k1 by lia.
  - intros Hl. now apply firstn_all2.
Qed.

Lemma getCompletions_limits_nest_witness :
  let this := addCompletions empty_Completer
                (map js ["abc"; "a"; "def"; "aaab"; "aa"]%string) in
  getCompletions this (Some (js "a")) (Some 2)
  = firstn 2 (getCompletions this (Some (js "a")) (Some 3))
  /\ getCompletions this (Some (js "d")) (Some 2)
     = getCompletions this (Some (js "d")) None.
Proof.
  cbv zeta. split.
  - apply getCompletions_limits_nest; lia.
  - apply getCompletions_limits_nest with (k2 := 2); try lia.
    vm_compute. lia.
Defined.

(** ** [contains] and [getCompletions] together *)

Lemma getCompletions_head (this : Completer) (c : char) (rest : list char)
    (limit : option nat) :
  truthy (contains this (c :: rest)) = true ->
  exists more, getCompletions this (Some (c :: rest)) limit = (c :: rest) :: more.
Proof.
  intros H. rewrite truthy_contains in H.
  change (char_at (c :: rest) 0) with (Some c) in H.
  change (skipn 1 (c :: rest)) with rest in H.
  assert (E : exists more,
             getCompletions this (Some (c :: rest)) None = (c :: rest) :: more).
  { rewrite getCompletions_found. unfold found. rewrite H. simpl. eauto. }
  destruct limit as [k|]; [|assumption].
  rewrite getCompletions_with_limit. destruct E as [more ->].
  destruct k as [|k]; simpl; eauto.
Qed.

(** X6. On any completer and for any non-empty string [s], [contains(s)]
    is truthy exactly when [getCompletions(s)] returns [s] itself, and then
    [s] is the first string returned, whatever the limit. *)
Theorem contains_iff_completes_itself (this : Completer) (s : jsstring) :
  s <> [] ->
  (truthy (contains this s) = true
   <-> In s (getCompletions this (Some s) None))
  /\ (truthy (contains this s) = true ->
      forall limit, exists more, getCompletions this (Some s) limit = s :: more).
Proof.
  intros Hs. destruct s as [|c rest]; [congruence|]. split.
  - split.
    + intros H. destruct (getCompletions_head this c rest None H) as [more E].
      match type of E with ?l = _ => change (In (c :: rest) l) end.
      rewrite E. now left.
    + rewrite getCompletions_found, truthy_contains. unfold found.
      change (char_at (c :: rest) 0) with (Some c).
      change (skipn 1 (c :: rest)) with rest.
      intros H. apply in_app_iff in H. destruct H as [H|H].
      * apply in_own in H. tauto.
      * apply pushed_longer in H. lia.
  - intros H limit. now apply getCompletions_head.
Qed.

Lemma contains_iff_completes_itself_witness :
  let this := addCompletions empty_Completer
                (map js ["abc"; "a"; "def"; "aaab"; "aa"]%string) in
  truthy (contains this (js "aa")) = true
  /\ exists more, getCompletions this (Some (js "aa")) (Some 1) = js "aa" :: more.
Proof.
  cbv zeta. split; [vm_compute; reflexivity|].
  apply contains_iff_completes_itself; [discriminate|].
  vm_compute. reflexivity.
Defined.

Lemma firstn_eq_nil (A : Type) (k : nat) (l : list A) :
  1 <= k -> firstn k l = [] <-> l = [].
Proof.
  intros Hk. destruct k as [|k]; [lia|]. destruct l; simpl; split; congruence.
Qed.

(** X7. In a completer reached from the constructor by [addCompletion]
    calls (any strings), for a non-empty [p] and any limit:
    [getCompletions(p)] is empty exactly when [contains(p)] is the boolean
    [false].  When [contains(p)] is [null], some completion of [p] is
    returned. *)
Theorem no_completion_iff_false (completions : list jsstring) (draws : list nat)
    (this : Completer) (adds : list jsstring) (p : jsstring)
    (limit : option nat) :
  new_Completer completions draws = Some this ->
  p <> [] ->
  getCompletions (addCompletions this adds) (Some p) limit = []
  <-> contains (addCompletions this adds) p = JBool false.
Proof.
  intros H Hp. set (that := addCompletions this adds).
  assert (Hf : flags_ok (root that) = true).
  { revert H. apply new_Completer_preserves; [|reflexivity].
    intros n c rest. apply flags_ok_put_s. }
  assert (Hl : live (root that) = true).
  { revert H. apply new_Completer_preserves; [|reflexivity].
    intros n c rest. apply live_put_s. }
  destruct p as [|c rest]; [congruence|].
  assert (E : getCompletions that (Some (c :: rest)) limit = []
              <-> getCompletions that (Some (c :: rest)) None = []).
  { destruct limit as [k|]; [|tauto]. rewrite getCompletions_with_limit.
    destruct (Nat.eqb_spec k 0); [tauto | apply firstn_eq_nil; lia]. }
  rewrite E, getCompletions_found, contains_get_s. cbv zeta.
  change (char_at (c :: rest) 0) with (Some c).
  change (skipn 1 (c :: rest)) with rest.
  pose proof (flags_ok_get_s _ Hf (Some c) rest) as Hfl.
  pose proof (live_get_s _ Hl (Some c) rest) as Hlv.
  destruct (get_s (root that) (Some c) rest) as [|nc l m r f] eqn:En.
  - simpl. tauto.
  - split.
    + intros Hnil. exfalso.
      now apply (@live_found (mkNode nc l m r f) (c :: rest) Hlv).
    + simpl in *. congruence.
Qed.

Lemma no_completion_iff_false_witness :
  let this := addCompletions empty_Completer (map js ["abc"; ""; "b"]%string) in
  (getCompletions this (Some (js "ab")) None = [js "abc"]
   /\ contains this (js "ab") = JNull)
  /\ (getCompletions this (Some (js "ac")) (Some 3) = []
      <-> contains this (js "ac") = JBool false).
Proof.
  cbv zeta. split; [split; vm_compute; reflexivity|].
  apply (@no_completion_iff_false (map js [""; "abc"; "b"]%string) [1; 0; 2]
           _ [] (js "ac") (Some 3)).
  - vm_compute. reflexivity.
  - discriminate.
Defined.

(** ** Insertion only adds *)

Lemma pushed_put_s_incl (node : Node) :
  forall c rest p x,
    In x (pushed node p) -> In x (pushed (put_s node c rest) p).
Proof.
  induction node as [|nc l IHl m IHm r IHr f]; intros c rest p x.
  - intros [].
  - simpl. by_cases_put c nc rest; simpl; rewrite !in_app_iff, !in_own;
      intuition.
Qed.

Lemma found_put_s_incl (node : Node) :
  forall c rest c' rest' q x,
    In x (found (get_s node c' rest') q) ->
    In x (found (get_s (put_s node c rest) c' rest') q).
Proof.
  induction node as [|nc l IHl m IHm r IHr f]; intros c rest c' rest' q x.
  - intros [].
  - simpl. by_cases_put c nc rest; simpl;
      destruct (js_lt c' nc); auto;
      destruct (js_gt c' nc); auto;
      destruct rest'; auto;
      unfold found; simpl; rewrite !in_app_iff, !in_own.
    + intuition.
    + intros [H|H]; [tauto|]. right. now apply pushed_put_s_incl.
Qed.

(** X8. [addCompletion] never removes anything, whatever the completer and
    the string added (the empty string too): a string that [contains]
    reported [true] for still does, every string that [getCompletions(p)]
    returned without a limit is still returned, and [size] stays or grows
    by one. *)
Theorem addCompletion_only_adds (this : Completer) (s : jsstring) :
  (forall q, contains this q = JBool true ->
             contains (addCompletion this s) q = JBool true)
  /\ (forall p x, In x (getCompletions this (Some p) None) ->
                  In x (getCompletions (addCompletion this s) (Some p) None))
  /\ size this <= size (addCompletion this s) <= size this + 1.
Proof.
  split; [|split].
  - intros q H. apply contains_true_iff. rewrite root_addCompletion.
    apply get_s_put_s_other. now apply contains_true_iff.
  - intros [|c rest] x; [intros []|].
    rewrite !getCompletions_found, root_addCompletion.
    apply found_put_s_incl.
  - rewrite size_addCompletion. destruct (truthy (contains this s)); lia.
Qed.

Lemma addCompletion_only_adds_witness :
  let this := addCompletions empty_Completer (map js ["abc"; "ab"]%string) in
  contains (addCompletion this []) (js "ab") = JBool true
  /\ In (js "abc") (getCompletions (addCompletion this (js "aa")) (Some (js "a")) None).
Proof.
  cbv zeta. split.
  - apply addCompletion_only_adds. vm_compute. reflexivity.
  - apply addCompletion_only_adds. vm_compute. auto.
Defined.

(** ** Space *)

Lemma node_count_chain (rest : list char) :
  forall c, node_count (chain c rest) = S (List.length rest).
Proof.
  induction rest as [|c1 rest IH]; intros c; simpl; [reflexivity|].
  rewrite IH. lia.
Qed.

Lemma node_count_put_s (node : Node) :
  forall c rest,
    node_count node <= node_count (put_s node c rest)
    <= node_count node + S (List.length rest).
Proof.
  induction node as [|nc l IHl m IHm r IHr f]; intros c rest; simpl.
  - rewrite node_count_chain. lia.
  - by_cases_put c nc rest; simpl.
    + specialize (IHl c rest). lia.
    + specialize (IHr c rest). lia.
    + lia.
    + specialize (IHm (Some c0) rest). lia.
Qed.

Lemma length_skipn_1 (s : jsstring) :
  S (List.length (skipn 1 s)) = Nat.max 1 (List.length s).
Proof. destruct s as [|c rest]; reflexivity. Qed.

Lemma node_count_addCompletions (ss : list jsstring) :
  forall this,
    node_count (root (addCompletions this ss))
    <= node_count (root this)
       + list_sum (map (fun s => Nat.max 1 (List.length s)) ss).
Proof.
  induction ss as [|s ss IH]; intros this; [simpl; lia|].
  change (addCompletions this (s :: ss))
    with (addCompletions (addCompletion this s) ss).
  change (list_sum (map (fun s => Nat.max 1 (List.length s)) (s :: ss)))
    with (Nat.max 1 (List.length s)
          + list_sum (map (fun s => Nat.max 1 (List.length s)) ss)).
  specialize (IH (addCompletion this s)). rewrite root_addCompletion in IH.
  pose proof (node_count_put_s (root this) (char_at s 0) (skipn 1 s)) as H.
  rewrite length_skipn_1 in H. lia.
Qed.

(** X9. An insertion keeps every node and allocates at most one node per
    character of the string (one node for the empty string), so the number
    of nodes of a completer built by the constructor and later additions
    is at most the total number of characters inserted. *)
Theorem node_count_bound (completions : list jsstring) (draws : list nat)
    (this : Completer) (adds : list jsstring) (s : jsstring) :
  new_Completer completions draws = Some this ->
  let that := addCompletions this adds in
  node_count (root that)
  <= list_sum (map (fun s => Nat.max 1 (List.length s)) (completions ++ adds))
  /\ node_count (root that) <= node_count (root (addCompletion that s))
     <= node_count (root that) + Nat.max 1 (List.length s).
Proof.
  intros H that. split.
  - subst that. destruct (new_Completer_order _ _ H) as (order & Hp & ->).
    rewrite <- addCompletions_app.
    pose proof (node_count_addCompletions (order ++ adds) empty_Completer) as G.
    change (node_count (root empty_Completer)) with 0 in G.
    assert (E : list_sum (map (fun s => Nat.max 1 (List.length s)) (order ++ adds))
                = list_sum (map (fun s => Nat.max 1 (List.length s))
                              (completions ++ adds))).
    { apply Permutation_list_sum, Permutation_map.
      now apply Permutation_app_tail. }
    lia.
  - rewrite root_addCompletion, <- length_skipn_1. apply node_count_put_s.
Qed.

Lemma node_count_bound_witness :
  let that := addCompletions empty_Completer
                (map js ["abc"; "a"; "def"; "aaab"; "aa"]%string) in
  node_count (root that) <= 13
  /\ node_count (root (addCompletion that (js "abd"))) <= node_count (root that) + 3.
Proof.
  cbv zeta.
  destruct (@node_count_bound (map js ["a"; "aa"; "aaab"; "abc"; "def"]%string)
              [3; 0; 3; 4; 2; 1]
              (addCompletions empty_Completer
                 (map js ["abc"; "a"; "def"; "aaab"; "aa"]%string))
              [] (js "abd")) as [B1 [_ B2]]; [vm_compute; reflexivity|].
  split; [exact B1 | exact B2].
Defined.

(** ** Size with any strings *)

(** X10. Whatever strings are given to the constructor and added later,
    the empty string included, [size] is the number of nodes whose
    [isCompletion] is [true] and is at most the number of insertions. *)
Theorem size_counts_marked_nodes (completions : list jsstring)
    (draws : list nat) (this : Completer) (adds : list jsstring) :
  new_Completer completions draws = Some this ->
  let that := addCompletions this adds in
  size that = count_completions (root that)
  /\ size that <= List.length completions + List.length adds.
Proof.
  intros H that. subst that.
  destruct (new_Completer_order _ _ H) as (order & Hp & ->).
  rewrite <- addCompletions_app. split.
  - now apply size_count_addCompletions.
  - rewrite <- (Permutation_length Hp), <- length_app.
    generalize (order ++ adds) as ss. intros ss.
    assert (G : forall t, size (addCompletions t ss) <= size t + List.length ss).
    { induction ss as [|s ss IH]; intros t; [simpl; lia|].
      change (addCompletions t (s :: ss))
        with (addCompletions (addCompletion t s) ss).
      specialize (IH (addCompletion t s)). rewrite size_addCompletion in IH.
      simpl List.length. destruct (truthy (contains t s)); lia. }
    apply (G empty_Completer).
Qed.

Lemma size_counts_marked_nodes_witness :
  let that := addCompletions empty_Completer (map js [""; "a"; "b"; "ab"]%string) in
  size that = count_completions (root that) /\ size that <= 3 + 1.
Proof.
  apply (@size_counts_marked_nodes (map js ["a"; ""; "b"]%string) [1; 0; 2]
           _ [js "ab"]).
  vm_compute. reflexivity.
Defined.

(** ** The empty string *)

Lemma node_c_put_s (node : Node) (c : option char) (rest : list char) :
  is_null node = false -> node_c (put_s node c rest) = node_c node.
Proof.
  destruct node as [|nc l m r f]; [discriminate|]. intros _. simpl.
  by_cases_put c nc rest; reflexivity.
Qed.

Lemma node_c_addCompletions (adds : list jsstring) :
  forall this x,
    node_c (root this) = Some x ->
    node_c (root (addCompletions this adds)) = Some x.
Proof.
  induction adds as [|s adds IH]; intros this x H; [assumption|].
  change (addCompletions this (s :: adds))
    with (addCompletions (addCompletion this s) adds).
  apply IH. rewrite root_addCompletion, node_c_put_s; [assumption|].
  destruct (root this); [discriminate | reflexivity].
Qed.

(** With the empty string, [_get] and [_put] stop at the root node. *)
Lemma empty_string_at_root (this : Completer) (x : char) :
  node_c (root this) = Some x ->
  contains this [] = node_isCompletion (root this)
  /\ contains this [x] = node_isCompletion (root this)
  /\ root (addCompletion this []) = set_isCompletion (root this) (JBool true).
Proof.
  intros H. rewrite !contains_get_s, root_addCompletion. cbv zeta.
  change (char_at [] 0) with (@None char).
  change (char_at [x] 0) with (Some x).
  change (skipn 1 [x]) with (@nil char).
  change (skipn 1 (@nil char)) with (@nil char).
  destruct (root this) as [|nc l m r f]; [discriminate|].
  simpl in H. subst nc. simpl.
  unfold js_gt. rewrite js_lt_irrefl.
  repeat split.
Qed.

(** X11. Once a first string [c :: r] has been inserted, the empty string
    stands for the root node, whose character is [c]: [contains("")]
    answers what [contains(c)] answers, and [addCompletion("")] marks that
    node, so that afterwards [contains(c)] is [true] whether or not the
    one-character string [c] was ever inserted; [size] grows by one unless
    [c] was contained. *)
Theorem empty_string_is_first_character (c : char) (r : list char)
    (adds : list jsstring) :
  let this := addCompletions (addCompletion empty_Completer (c :: r)) adds in
  contains this [] = contains this [c]
  /\ contains (addCompletion this []) [c] = JBool true
  /\ contains (addCompletion this []) [] = JBool true
  /\ size (addCompletion this [])
     = size this + (if truthy (contains this [c]) then 0 else 1).
Proof.
  intros this.
  assert (Hc : node_c (root this) = Some c).
  { apply node_c_addCompletions. rewrite root_addCompletion.
    change (char_at (c :: r) 0) with (Some c). simpl. now destruct r. }
  destruct (empty_string_at_root this Hc) as (E1 & E2 & E3).
  assert (Hc' : node_c (root (addCompletion this [])) = Some c).
  { rewrite E3. destruct (root this); [discriminate | exact Hc]. }
  destruct (empty_string_at_root (addCompletion this []) Hc') as (F1 & F2 & _).
  assert (F : node_isCompletion (root (addCompletion this [])) = JBool true).
  { rewrite E3. destruct (root this); [discriminate | reflexivity]. }
  split; [congruence|]. split; [congruence|]. split; [congruence|].
  rewrite size_addCompletion, E1, E2. reflexivity.
Qed.

(** X12. If the empty string is the first string inserted, the root node
    has no character and matches every character: whatever is inserted
    later, [contains] is [true] for every one-character string and
    [getCompletions] returns it first. *)
Theorem empty_string_inserted_first (adds : list jsstring) (x : char)
    (limit : option nat) :
  let this := addCompletions (addCompletion empty_Completer []) adds in
  contains this [x] = JBool true
  /\ exists more, getCompletions this (Some [x]) limit = [x] :: more.
Proof.
  intros this.
  assert (H : contains this [x] = JBool true).
  { apply contains_addCompletions_keep. apply contains_true_iff.
    rewrite root_addCompletion. reflexivity. }
  split; [assumption|].
  apply getCompletions_head. now rewrite H.
Qed.

(** ** The order of insertion *)

(** In a completer built from the non-empty strings [ss], the value of
    [contains] on a non-empty string is decided by [ss] alone. *)
Lemma trie_inv_contains_value (ss : list jsstring) (this : Completer)
    (c : char) (rest : list char) :
  trie_inv ss this ->
  contains this (c :: rest)
  = if in_dec jsstring_eq_dec (c :: rest) ss then JBool true
    else if existsb (fun x => starts_with x (c :: rest)) ss then JNull
         else JBool false.
Proof.
  intros I.
  pose proof (trie_inv_contains c rest I) as Hc.
  pose proof (fun x => @get_s_spec _ (inv_bst I) (inv_defined I) c rest [] x)
    as Hspec.
  change ([] ++ c :: rest) with (c :: rest) in Hspec.
  rewrite truthy_contains in Hc. rewrite contains_get_s. cbv zeta in *.
  change (char_at (c :: rest) 0) with (Some c) in *.
  change (skipn 1 (c :: rest)) with rest in *.
  pose proof (flags_ok_get_s _ (inv_flags I) (Some c) rest) as Hfl.
  pose proof (live_get_s _ (inv_live I) (Some c) rest) as Hlv.
  set (n := get_s (root this) (Some c) rest) in *.
  destruct (in_dec jsstring_eq_dec (c :: rest) ss) as [Hin|Hnin].
  - apply Hc in Hin. destruct n as [|nc l m r f]; [discriminate|].
    simpl in *. destruct f as [|[|]]; try discriminate. reflexivity.
  - assert (Ht : truthy (node_isCompletion n) <> true) by tauto.
    destruct (existsb (fun x => starts_with x (c :: rest)) ss) eqn:Ex.
    + apply existsb_exists in Ex. destruct Ex as (x & Hx & Hsw).
      apply starts_with_spec in Hsw.
      assert (Hf : In x (found n (c :: rest)))
        by (apply Hspec; rewrite (inv_stored I); auto).
      destruct n as [|nc l m r f]; [destruct Hf|].
      simpl in *.
      destruct f as [|[|]];
        [reflexivity | exfalso; apply Ht; reflexivity
         | exfalso; apply Hfl; reflexivity].
    + destruct (is_null n) eqn:En; [reflexivity|].
      exfalso. pose proof (@live_found n (c :: rest) Hlv En) as Hf.
      destruct (found n (c :: rest)) as [|x fs] eqn:Ef; [congruence|].
      destruct (Hspec x) as [Hx _].
      destruct (Hx (or_introl eq_refl)) as [Hin Hsw].
      apply starts_with_spec in Hsw. apply (inv_stored I) in Hin.
      apply not_true_iff_false in Ex. apply Ex.
      apply existsb_exists. exists x. auto.
Qed.

(** X13. The random order of the constructor, and the order of later
    [addCompletion] calls, do not show in the answers, up to the order of
    the completions: two completers built from the same non-empty strings
    have the same [size], give the same value of [contains] on every
    non-empty string, and return the same completions for every non-empty
    prefix, possibly in a different order. *)
Theorem insertion_order_irrelevant (completions : list jsstring)
    (draws1 draws2 : list nat) (this1 this2 : Completer)
    (adds1 adds2 : list jsstring) :
  Forall nonempty completions -> Forall nonempty adds1 ->
  Permutation adds1 adds2 ->
  new_Completer completions draws1 = Some this1 ->
  new_Completer completions draws2 = Some this2 ->
  let that1 := addCompletions this1 adds1 in
  let that2 := addCompletions this2 adds2 in
  size that1 = size that2
  /\ (forall s, s <> [] -> contains that1 s = contains that2 s)
  /\ (forall p, p <> [] ->
        Permutation (getCompletions that1 (Some p) None)
                    (getCompletions that2 (Some p) None)).
Proof.
  intros Hc Ha1 Hp H1 H2 that1 that2.
  assert (Ha2 : Forall nonempty adds2) by exact (Permutation_Forall Hp Ha1).
  pose proof (@new_Completer_inv _ _ _ adds1 Hc Ha1 H1) as I1.
  pose proof (@new_Completer_inv _ _ _ adds2 Hc Ha2 H2) as I2.
  fold that1 in I1. fold that2 in I2.
  assert (I2' : trie_inv (completions ++ adds1) that2).
  { revert I2. apply trie_inv_same. intros x. rewrite !in_app_iff.
    split; (intros [Hx|Hx]; [now left | right]).
    - now apply (Permutation_in _ (Permutation_sym Hp)).
    - now apply (Permutation_in _ Hp). }
  split; [|split].
  - now rewrite (inv_size I1), (inv_size I2').
  - intros [|c rest] Hs; [congruence|].
    now rewrite (trie_inv_contains_value c rest I1),
                (trie_inv_contains_value c rest I2').
  - intros [|c rest] Hs; [congruence|].
    destruct (trie_inv_getCompletions c rest I1) as [N1 M1].
    destruct (trie_inv_getCompletions c rest I2') as [N2 M2].
    apply NoDup_Permutation; try assumption.
    intros x. now rewrite M1, M2.
Qed.

Lemma insertion_order_irrelevant_witness :
  let that1 := addCompletions empty_Completer (map js ["ab"; "aa"; "b"]%string) in
  let that2 := addCompletions empty_Completer (map js ["aa"; "ab"; "b"]%string) in
  getCompletions that1 (Some (js "a")) None = map js ["ab"; "aa"]%string
  /\ getCompletions that2 (Some (js "a")) None = map js ["aa"; "ab"]%string
  /\ size that1 = size that2
  /\ (forall s, s <> [] -> contains that1 s = contains that2 s)
  /\ (forall p, p <> [] ->
        Permutation (getCompletions that1 (Some p) None)
                    (getCompletions that2 (Some p) None)).
Proof.
  cbv zeta. split; [vm_compute; reflexivity|]. split; [vm_compute; reflexivity|].
  apply (@insertion_order_irrelevant (map js ["ab"; "aa"]%string)
           [0; 1] [1; 0] _ _ [js "b"] [js "b"]).
  - repeat constructor; discriminate.
  - repeat constructor; discriminate.
  - apply Permutation_refl.
  - vm_compute. reflexivity.
  - vm_compute. reflexivity.
Defined.

(** ** A stored string comes before its extensions *)

Lemma occurs_before_app_l (x y : jsstring) (a l : list jsstring) :
  occurs_before x y l -> occurs_before x y (a ++ l).
Proof.
  intros (l1 & l2 & l3 & ->). exists (a ++ l1), l2, l3.
  now rewrite <- app_assoc.
Qed.

Lemma occurs_before_app_r (x y : jsstring) (l b : list jsstring) :
  occurs_before x y l -> occurs_before x y (l ++ b).
Proof.
  intros (l1 & l2 & l3 & ->). exists l1, l2, (l3 ++ b).
  rewrite <- app_assoc. simpl. rewrite <- app_assoc. reflexivity.
Qed.

Lemma occurs_before_split (x y : jsstring) (a b : list jsstring) :
  In x a -> In y b -> occurs_before x y (a ++ b).
Proof.
  intros Hx Hy. apply in_split in Hx, Hy.
  destruct Hx as (a1 & a2 & ->). destruct Hy as (b1 & b2 & ->).
  exists a1, (a2 ++ b1), b2. rewrite <- !app_assoc. reflexivity.
Qed.

(** The shape of the strings pushed from the three subtrees of an ordered
    node. *)
Lemma pushed_parts (y : char) (l m r : Node) (f : jsval) (p : jsstring) :
  bst (mkNode (Some y) l m r f) = true ->
  defined (mkNode (Some y) l m r f) = true ->
  (forall x, In x (pushed l p) ->
             exists z r1, x = p ++ z :: r1 /\ (z < y)%N)
  /\ (forall x, In x (pushed m (p ++ [y])) ->
                exists z r1, x = p ++ y :: z :: r1)
  /\ (forall x, In x (pushed r p) ->
                exists z r1, x = p ++ z :: r1 /\ (y < z)%N).
Proof.
  simpl. intros Hb Hd. split_andb. split; [|split]; intros x Hx.
  - destruct (pushed_shape l ltac:(assumption) _ _ Hx) as (z & r1 & Hz & E).
    exists z, r1. split; [assumption|].
    match goal with H : forallb _ (level_chars l) = true |- _ =>
      rewrite forallb_forall in H; apply H in Hz end.
    rewrite js_lt_Some in Hz. now apply N.ltb_lt in Hz.
  - destruct (pushed_shape m ltac:(assumption) _ _ Hx) as (z & r1 & _ & E).
    exists z, r1. now rewrite E, <- app_assoc.
  - destruct (pushed_shape r ltac:(assumption) _ _ Hx) as (z & r1 & Hz & E).
    exists z, r1. split; [assumption|].
    match goal with H : forallb _ (level_chars r) = true |- _ =>
      rewrite forallb_forall in H; apply H in Hz end.
    unfold js_gt in Hz. rewrite js_lt_Some in Hz. now apply N.ltb_lt in Hz.
Qed.

(** From [x = p ++ bx], [y = p ++ by] and [y = x ++ e]: the two tails
    agree on their first character, which the hypotheses exclude. *)
Ltac tails_clash Ex Ey Ee :=
  rewrite Ex in Ee; rewrite Ey in Ee; rewrite <- app_assoc in Ee;
  apply app_inv_head in Ee;
  simpl in Ee; injection Ee; intros; subst;
  try discriminate; try lia; try congruence.

Lemma pushed_before (node : Node) :
  bst node = true -> defined node = true ->
  forall p x y,
    In x (pushed node p) -> In y (pushed node p) ->
    x <> y -> (exists e, y = x ++ e) ->
    occurs_before x y (pushed node p).
Proof.
  induction node as [|nc l IHl m IHm r IHr f]; intros Hb Hd p x y' Hx Hy Hne [e Ee];
    [destruct Hx|].
  destruct nc as [y|]; [|simpl in Hd; discriminate].
  destruct (@pushed_parts y l m r f p Hb Hd) as (FL & FM & FR).
  assert (Hsub : (bst l = true /\ defined l = true) /\
                 (bst m = true /\ defined m = true) /\
                 (bst r = true /\ defined r = true))
    by (simpl in Hb, Hd; split_andb; auto).
  destruct Hsub as ((Hbl & Hdl) & (Hbm & Hdm) & (Hbr & Hdr)).
  simpl in Hx, Hy |- *.
  rewrite !in_app_iff, in_own in Hx, Hy.
  destruct Hx as [[Hf Ex]|[Hx|[Hx|Hx]]].
  - (* x is the node's own string *)
    destruct Hy as [[_ Ey]|[Hy|[Hy|Hy]]].
    + congruence.
    + destruct (FL _ Hy) as (z & r1 & Ey & Hz). tails_clash Ex Ey Ee.
    + apply occurs_before_split.
      * apply in_own. now split.
      * rewrite !in_app_iff. auto.
    + destruct (FR _ Hy) as (z & r1 & Ey & Hz). tails_clash Ex Ey Ee.
  - destruct (FL _ Hx) as (zx & rx & Ex & Hzx).
    destruct Hy as [[_ Ey]|[Hy|[Hy|Hy]]].
    + tails_clash Ex Ey Ee.
    + apply occurs_before_app_l, occurs_before_app_r.
      apply IHl; eauto.
    + destruct (FM _ Hy) as (z & r1 & Ey). tails_clash Ex Ey Ee.
    + destruct (FR _ Hy) as (z & r1 & Ey & Hz). tails_clash Ex Ey Ee.
  - destruct (FM _ Hx) as (zx & rx & Ex).
    destruct Hy as [[_ Ey]|[Hy|[Hy|Hy]]].
    + tails_clash Ex Ey Ee.
    + destruct (FL _ Hy) as (z & r1 & Ey & Hz). tails_clash Ex Ey Ee.
    + apply occurs_before_app_l, occurs_before_app_l, occurs_before_app_r.
      apply IHm; eauto.
    + destruct (FR _ Hy) as (z & r1 & Ey & Hz). tails_clash Ex Ey Ee.
  - destruct (FR _ Hx) as (zx & rx & Ex & Hzx).
    destruct Hy as [[_ Ey]|[Hy|[Hy|Hy]]].
    + tails_clash Ex Ey Ee.
    + destruct (FL _ Hy) as (z & r1 & Ey & Hz). tails_clash Ex Ey Ee.
    + destruct (FM _ Hy) as (z & r1 & Ey). tails_clash Ex Ey Ee.
    + apply occurs_before_app_l, occurs_before_app_l, occurs_before_app_l.
      apply IHr; eauto.
Qed.

(** X14. In a completer built from non-empty strings, and for a non-empty
    prefix, a returned string comes before every returned string that
    extends it: [collectCompletions] pushes a node's own string before it
    enters the node's middle subtree, and [getCompletions] pushes the
    prefix itself before anything else. *)
Theorem string_before_its_extensions (completions : list jsstring)
    (draws : list nat) (this : Completer) (adds : list jsstring)
    (p x y : jsstring) :
  Forall nonempty completions -> Forall nonempty adds ->
  new_Completer completions draws = Some this ->
  p <> [] ->
  let result := getCompletions (addCompletions this adds) (Some p) None in
  In x result -> In y result ->
  x <> y -> starts_with y x = true ->
  occurs_before x y result.
Proof.
  intros Hc Ha H Hp result. subst result.
  pose proof (@new_Completer_inv _ _ _ adds Hc Ha H) as I.
  destruct p as [|c rest]; [congruence|].
  rewrite getCompletions_found.
  destruct (@bst_defined_mid
              (get_s (root (addCompletions this adds)) (Some c) rest))
    as [Hbm Hdm];
    [apply bst_get_s, (inv_bst I) | apply defined_get_s, (inv_defined I) |].
  unfold found. intros Hx Hy Hne Hsw. apply starts_with_spec in Hsw.
  rewrite in_app_iff, in_own in Hx, Hy.
  destruct Hx as [[Hf Ex]|Hx].
  - destruct Hy as [[_ Ey]|Hy]; [congruence|].
    apply occurs_before_split; [apply in_own; now split | assumption].
  - destruct Hy as [[_ Ey]|Hy].
    + exfalso. apply pushed_longer in Hx. destruct Hsw as [e Ee].
      subst y. assert (L := f_equal (@List.length char) Ee).
      rewrite length_app in L. lia.
    + apply occurs_before_app_l. now apply pushed_before.
Qed.

Lemma string_before_its_extensions_witness :
  let result :=
    getCompletions
      (addCompletions empty_Completer
         (map js ["abc"; "aaab"; "aa"; "def"; "a"; "ab"]%string))
      (Some (js "a")) None in
  result = map js ["a"; "ab"; "aa"; "aaab"; "abc"]%string
  /\ occurs_before (js "aa") (js "aaab") result.
Proof.
  cbv zeta. split; [vm_compute; reflexivity|].
  apply (@string_before_its_extensions
           (map js ["a"; "aa"; "aaab"; "abc"; "def"]%string)
           [3; 2; 1; 2; 4; 0] _ [js "ab"] (js "a") (js "aa") (js "aaab")).
  - repeat constructor; discriminate.
  - repeat constructor; discriminate.
  - vm_compute. reflexivity.
  - discriminate.
  - vm_compute. auto 10.
  - vm_compute. auto 10.
  - discriminate.
  - reflexivity.
Defined.

(** ** Strings added in ascending order *)

Lemma js_string_lt_app (p a b : jsstring) :
  js_string_lt (p ++ a) (p ++ b) = js_string_lt a b.
Proof.
  induction p as [|x p IH]; simpl; [reflexivity|].
  now rewrite N.ltb_irrefl, N.eqb_refl, IH.
Qed.

Lemma js_string_lt_cons (z1 z2 : char) (r1 r2 : list char) :
  (z1 < z2)%N -> js_string_lt (z1 :: r1) (z2 :: r2) = true.
Proof. intros H. simpl. apply N.ltb_lt in H. now rewrite H. Qed.

Lemma js_string_lt_cons_inv (z1 z2 : char) (r1 r2 : list char) :
  js_string_lt (z1 :: r1) (z2 :: r2) = true -> (z1 <= z2)%N.
Proof.
  simpl. intros H. apply orb_true_iff in H. destruct H as [H|H].
  - apply N.ltb_lt in H. lia.
  - apply andb_true_iff in H. destruct H as [H _]. apply N.eqb_eq in H. lia.
Qed.

Lemma ascending_app (l1 l2 : list jsstring) :
  ascending l1 = true -> ascending l2 = true ->
  (forall a b, In a l1 -> In b l2 -> js_string_lt a b = true) ->
  ascending (l1 ++ l2) = true.
Proof.
  induction l1 as [|a l1 IH]; intros H1 H2 H; simpl in *; [assumption|].
  split_andb.
  - apply forallb_forall. intros b Hb. apply in_app_iff in Hb.
    destruct Hb as [Hb|Hb]; [|now apply H; auto].
    match goal with G : forallb _ l1 = true |- _ =>
      rewrite forallb_forall in G; now apply G end.
  - apply IH; auto.
Qed.

Lemma ascending_app_inv (l1 l2 : list jsstring) :
  ascending (l1 ++ l2) = true ->
  forall a b, In a l1 -> In b l2 -> js_string_lt a b = true.
Proof.
  induction l1 as [|x l1 IH]; intros H a b Ha Hb; [destruct Ha|].
  simpl in H. split_andb. destruct Ha as [->|Ha].
  - match goal with G : forallb _ (l1 ++ l2) = true |- _ =>
      rewrite forallb_forall in G; apply G end.
    apply in_app_iff. now right.
  - now apply IH.
Qed.

Lemma no_left_chain (rest : list char) : forall c, no_left (chain c rest) = true.
Proof. induction rest as [|c1 rest IH]; intros c; simpl; [|rewrite IH]; reflexivity. Qed.

(** Putting a string that is greater than every string below the node
    never takes the left branch. *)
Lemma no_left_put_s (node : Node) :
  bst node = true -> defined node = true -> live node = true ->
  no_left node = true ->
  forall c rest p,
    (forall x, In x (pushed node p) ->
               js_string_lt x (p ++ c :: rest) = true) ->
    no_left (put_s node (Some c) rest) = true.
Proof.
  induction node as [|nc l IHl m IHm r IHr f];
    intros Hb Hd Hl Hn c rest p Hgt; [apply no_left_chain|].
  destruct nc as [y|]; [|simpl in Hd; discriminate].
  destruct (@pushed_parts y l m r f p Hb Hd) as (FL & FM & FR).
  pose proof (@live_pushed _ Hl eq_refl p) as Hne.
  simpl in Hb, Hd, Hl, Hn. split_andb.
  simpl. rewrite js_lt_Some. unfold js_gt. rewrite js_lt_Some.
  destruct (N.ltb_spec c y) as [Hlt|Hge].
  - (* impossible: every string below the node starts with y or more *)
    exfalso.
    assert (Hex : exists x, In x (pushed (mkNode (Some y) l m r f) p)).
    { destruct (pushed (mkNode (Some y) l m r f) p) as [|x xs];
        [congruence | exists x; now left]. }
    destruct Hex as [x Hx]. pose proof (Hgt x Hx) as Hlt'.
    simpl in Hx. rewrite !in_app_iff, in_own in Hx.
    destruct l; [|discriminate].
    destruct Hx as [[_ ->]|[[]|[Hx|Hx]]].
    + rewrite js_string_lt_app in Hlt'. apply js_string_lt_cons_inv in Hlt'. lia.
    + destruct (FM _ Hx) as (z & r1 & ->).
      rewrite js_string_lt_app in Hlt'. apply js_string_lt_cons_inv in Hlt'. lia.
    + destruct (FR _ Hx) as (z & r1 & -> & Hz).
      rewrite js_string_lt_app in Hlt'. apply js_string_lt_cons_inv in Hlt'. lia.
  - destruct (N.ltb_spec y c) as [Hgt'|Hle].
    + simpl. split_andb; auto. apply (IHr ltac:(assumption) ltac:(assumption)
                                        ltac:(assumption) ltac:(assumption) c rest p).
      intros x Hx. apply Hgt. simpl. rewrite !in_app_iff. auto.
    + assert (y = c) by lia. subst y. destruct rest as [|c1 rest1].
      * simpl. split_andb; auto.
      * simpl. split_andb; auto.
        apply (IHm ltac:(assumption) ltac:(assumption)
                 ltac:(assumption) ltac:(assumption) c1 rest1 (p ++ [c])).
        intros x Hx. rewrite <- app_assoc. simpl. apply Hgt.
        simpl. rewrite !in_app_iff. auto.
Qed.

Lemma ascending_pushed (node : Node) :
  bst node = true -> defined node = true -> no_left node = true ->
  forall p, ascending (pushed node p) = true.
Proof.
  induction node as [|nc l IHl m IHm r IHr f]; intros Hb Hd Hn p;
    [reflexivity|].
  destruct nc as [y|]; [|simpl in Hd; discriminate].
  destruct (@pushed_parts y l m r f p Hb Hd) as (_ & FM & FR).
  simpl in Hb, Hd, Hn. split_andb. destruct l; [|discriminate].
  simpl. apply ascending_app; [destruct (truthy f); reflexivity | |].
  - apply ascending_app; auto.
    intros a b Ha Hb'. destruct (FM _ Ha) as (z & r1 & ->).
    destruct (FR _ Hb') as (z' & r' & -> & Hz).
    rewrite js_string_lt_app. now apply js_string_lt_cons.
  - intros a b Ha Hb'. apply in_own in Ha. destruct Ha as [_ ->].
    apply in_app_iff in Hb'. destruct Hb' as [Hb'|Hb'].
    + destruct (FM _ Hb') as (z & r1 & ->).
      rewrite js_string_lt_app. simpl.
      now rewrite N.ltb_irrefl, N.eqb_refl.
    + destruct (FR _ Hb') as (z' & r' & -> & Hz).
      rewrite js_string_lt_app. now apply js_string_lt_cons.
Qed.

Lemma no_left_get_s (node : Node) :
  no_left node = true -> forall c rest, no_left (get_s node c rest) = true.
Proof.
  induction node as [|nc l IHl m IHm r IHr f]; intros Hn c rest.
  - reflexivity.
  - pose proof Hn as Hn'. simpl in Hn. split_andb.
    simpl. by_cases_put c nc rest; auto.
    destruct l; [reflexivity | discriminate].
Qed.

Lemma ascending_found (n : Node) (q : jsstring) :
  bst n = true -> defined n = true -> no_left n = true ->
  ascending (found n q) = true.
Proof.
  intros Hb Hd Hn. destruct (bst_defined_mid n Hb Hd) as [Hbm Hdm].
  assert (Hnm : no_left (node_mid n) = true)
    by (destruct n; [reflexivity | simpl in *; split_andb; assumption]).
  unfold found. apply ascending_app.
  - destruct (truthy _); reflexivity.
  - now apply ascending_pushed.
  - intros a b Ha Hb'. apply in_own in Ha. destruct Ha as [_ ->].
    destruct (pushed_shape _ Hdm _ _ Hb') as (z & r & _ & ->).
    rewrite <- (app_nil_r q) at 1. now rewrite js_string_lt_app.
Qed.

Lemma no_left_addCompletions (adds : list jsstring) :
  forall ss this,
    trie_inv ss this -> no_left (root this) = true ->
    Forall nonempty adds -> ascending (ss ++ adds) = true ->
    no_left (root (addCompletions this adds)) = true.
Proof.
  induction adds as [|s adds IH]; intros ss this I Hn Hne Hasc; [assumption|].
  inversion Hne as [|? ? Hs Hne']; subst.
  change (addCompletions this (s :: adds))
    with (addCompletions (addCompletion this s) adds).
  apply IH with (ss := ss ++ [s]).
  - now apply trie_inv_add.
  - destruct s as [|c rest]; [now elim Hs|].
    rewrite root_addCompletion.
    change (char_at (c :: rest) 0) with (Some c).
    change (skipn 1 (c :: rest)) with rest.
    apply no_left_put_s with (p := []); try apply I; try assumption.
    intros x Hx. apply (inv_stored I) in Hx.
    apply (ascending_app_inv _ _ Hasc x (c :: rest) Hx). now left.
  - assumption.
  - now rewrite <- app_assoc.
Qed.

Lemma ascending_firstn (k : nat) :
  forall l, ascending l = true -> ascending (firstn k l) = true.
Proof.
  induction k as [|k IH]; intros [|a l] H; try reflexivity.
  simpl in *. split_andb; [|now apply IH].
  apply forallb_forall. intros b Hb. apply In_firstn in Hb.
  match goal with G : forallb _ l = true |- _ =>
    rewrite forallb_forall in G; now apply G end.
Qed.

(** X15. When non-empty strings are added to an empty completer in
    ascending order, no insertion ever takes a left branch, and
    [getCompletions] returns its strings in ascending order, for every
    prefix and every limit.  (The random order of the constructor is what
    can break the order of the result.) *)
Theorem ascending_insertion_gives_ascending_result (ss : list jsstring)
    (p : option jsstring) (limit : option nat) :
  Forall nonempty ss -> ascending ss = true ->
  let this := addCompletions empty_Completer ss in
  no_left (root this) = true
  /\ ascending (getCompletions this p limit) = true.
Proof.
  intros Hne Hasc this.
  pose proof (@trie_inv_addCompletions ss [] empty_Completer
                trie_inv_empty Hne) as I.
  simpl in I. fold this in I.
  assert (Hn : no_left (root this) = true)
    by (apply (@no_left_addCompletions ss [] empty_Completer);
        [apply trie_inv_empty | reflexivity | assumption | assumption]).
  split; [assumption|].
  assert (E : ascending (getCompletions this p None) = true).
  { destruct p as [[|c rest]|]; try reflexivity.
    rewrite getCompletions_found. apply ascending_found.
    - apply bst_get_s, (inv_bst I).
    - apply defined_get_s, (inv_defined I).
    - now apply no_left_get_s. }
  destruct limit as [k|]; [|assumption].
  rewrite getCompletions_with_limit.
  destruct (k =? 0); [assumption | now apply ascending_firstn].
Qed.

Lemma ascending_insertion_gives_ascending_result_witness :
  let this := addCompletions empty_Completer
                (map js ["a"; "aa"; "aaab"; "abc"; "def"]%string) in
  getCompletions this (Some (js "a")) None
  = map js ["a"; "aa"; "aaab"; "abc"]%string
  /\ ascending (getCompletions this (Some (js "a")) None) = true.
Proof.
  cbv zeta. split; [vm_compute; reflexivity|].
  apply (@ascending_insertion_gives_ascending_result
           (map js ["a"; "aa"; "aaab"; "abc"; "def"]%string)
           (Some (js "a")) None).
  - repeat constructor; discriminate.
  - vm_compute. reflexivity.
Defined.

(** ** How many strings are returned *)

(** X16. In a completer built from non-empty strings, [getCompletions(p)]
    for a non-empty [p] returns as many strings as there are distinct
    stored strings starting with [p], and with a positive limit [k] the
    smaller of [k] and that number. *)
Theorem getCompletions_length (completions : list jsstring) (draws : list nat)
    (this : Completer) (adds : list jsstring) (p : jsstring) (k : nat) :
  Forall nonempty completions -> Forall nonempty adds ->
  new_Completer completions draws = Some this ->
  p <> [] -> 1 <= k ->
  let that := addCompletions this adds in
  let matches :=
    distinct_count (filter (fun x => starts_with x p) (completions ++ adds)) in
  List.length (getCompletions that (Some p) None) = matches
  /\ List.length (getCompletions that (Some p) (Some k)) = Nat.min k matches.
Proof.
  intros Hc Ha H Hp Hk that matches.
  pose proof (@new_Completer_inv _ _ _ adds Hc Ha H) as I. fold that in I.
  destruct p as [|c rest]; [congruence|].
  destruct (trie_inv_getCompletions c rest I) as [Hnd Hmem].
  assert (E : List.length (getCompletions that (Some (c :: rest)) None) = matches).
  { subst matches. unfold distinct_count. apply Permutation_length.
    apply NoDup_Permutation; [assumption | apply NoDup_nodup |].
    intros x. now rewrite nodup_In, filter_In, Hmem. }
  split; [assumption|].
  rewrite getCompletions_with_limit.
  destruct (Nat.eqb_spec k 0); [lia|].
  rewrite length_firstn. f_equal. exact E.
Qed.

Lemma getCompletions_length_witness :
  let that := addCompletions empty_Completer
                (map js ["abc"; "a"; "def"; "aaab"; "aa"; "aa"]%string) in
  List.length (getCompletions that (Some (js "a")) None) = 4
  /\ List.length (getCompletions that (Some (js "a")) (Some 3)) = 3.
Proof.
  apply (@getCompletions_length
           (map js ["a"; "aa"; "aaab"; "abc"; "def"]%string)
           [3; 0; 3; 4; 2; 1] _ [js "aa"] (js "a") 3).
  - repeat constructor; discriminate.
  - repeat constructor; discriminate.
  - vm_compute. reflexivity.
  - discriminate.
  - lia.
Defined.
